(** * Confluence search connector: the page cache and the fetch pipeline

    A shallow embedding of [api/confluence.py] and [api/routes.py]:
    the [OrderedDict] page cache of [ConfluenceClient], the coroutine
    [_get_page], the batch [_gather]/[fetch_pages], [search_pages],
    [search] and the [/search] route.

    Python objects that are shared and mutated (the page dicts held by
    the cache and returned to the caller) live in an explicit heap and
    are passed around as references.  Exceptions and the mutable state
    are threaded through a state-and-exception monad: a raised exception
    keeps the state reached so far, as in Python. *)

From Stdlib Require Import ZArith NArith Lia Ascii String DecimalString.
From stdpp Require Import base list strings.
From Equations Require Import Equations.

Local Open Scope Z_scope.

(** ** Exceptions and results *)

Inductive exn : Type :=
  | KeyError (key : string)
  | UpstreamProviderError (message : string)
  | HTTPException (status_code : Z) (detail : string)
  | ClientError        (* aiohttp: connection error or session timeout *)
  | RequestException   (* requests: network failure of the search call *)
  | JSONDecodeError.   (* a body that is not JSON *)

Inductive res (A : Type) : Type :=
  | Ok (a : A)
  | Raise (e : exn).
Arguments Ok {A} a.
Arguments Raise {A} e.

(** ** [collections.OrderedDict] with string keys

    The entries in iteration order: the head is the oldest end, the last
    element is the end [move_to_end] moves to and [popitem()] pops. *)

Module OrderedDict.
Section Dict.
Context {V : Type}.

Definition t := list (string * V).

Definition keys (d : t) : list string := map fst d.
Definition values (d : t) : list V := map snd d.

(* key in d *)
Definition contains (k : string) (d : t) : bool :=
existsb (fun e => String.eqb k (fst e)) d.

(* d[key], None standing for KeyError *)
Fixpoint getitem (k : string) (d : t) : option V :=
match d with
| [] => None
| (k', v') :: d' => if String.eqb k k' then Some v' else getitem k d'
end.

(* d[key] = v: an existing key keeps its place, a new key goes last *)
Fixpoint setitem (k : string) (v : V) (d : t) : t :=
match d with
| [] => [(k, v)]
| (k', v') :: d' =>
    if String.eqb k k' then (k, v) :: d' else (k', v') :: setitem k v d'
end.

Definition delitem (k : string) (d : t) : t :=
List.filter (fun e => negb (String.eqb k (fst e))) d.

(* d.move_to_end(key), last=True *)
Definition move_to_end (k : string) (d : t) : res t :=
match getitem k d with
| None => Raise (KeyError k)
| Some v => Ok (delitem k d ++ [(k, v)])
end.

(* d.popitem(), last=True *)
Definition popitem (d : t) : res ((string * V) * t) :=
match rev d with
| [] => Raise (KeyError "dictionary is empty")
| e :: r => Ok (e, rev r)
end.
End Dict.
Arguments t : clear implicits.
End OrderedDict.

Module OD := OrderedDict.

Definition inspect {A} (a : A) : {b | a = b} := exist _ a eq_refl.

(** ** The cache methods of [ConfluenceClient]

    Generic in the stored value and in its size estimate, which the
    client instantiates with page references and [sys.getsizeof].  Each
    method returns its result, or the exception it raises, with the
    cache it leaves behind. *)

Section Cache.
Context {V : Type}.
Variable sizeof : V -> N.            (* sys.getsizeof *)
Variable CACHE_LIMIT_BYTES : Z.

(* functools.reduce(lambda a, b: a + b, map(getsizeof, values), 0) *)
Definition _cache_size (cache : OD.t V) : Z :=
  fold_left (fun a b => a + b) (map (fun v => Z.of_N (sizeof v)) (OD.values cache)) 0.

(* self.cache.move_to_end(key); return self.cache[key] *)
Definition _cache_get (key : string) (cache : OD.t V) : res V * OD.t V :=
  match OD.move_to_end key cache with
  | Raise e => (Raise e, cache)
  | Ok cache' =>
      match OD.getitem key cache' with
      | None => (Raise (KeyError key), cache')
      | Some v => (Ok v, cache')
      end
  end.

(* while self._cache_size() > self.CACHE_LIMIT_BYTES: self.cache.popitem() *)
Equations evict (cache : OD.t V) : res unit * OD.t V by wf (length cache) lt :=
  evict cache with inspect (CACHE_LIMIT_BYTES <? _cache_size cache) := {
    | exist _ false _ => (Ok tt, cache)
    | exist _ true _ with inspect (OD.popitem cache) := {
        | exist _ (Raise e) _ => (Raise e, cache)
        | exist _ (Ok (_, cache')) _ => evict cache' } }.
Next Obligation.
  unfold OD.popitem in *.
  destruct (rev cache) as [|last r] eqn:E; [discriminate|].
  match goal with H : Ok _ = Ok _ |- _ => inversion H; subst end.
  rewrite length_rev, <- (length_rev cache), E. simpl. lia.
Qed.

(* self.cache[key] = item, then the eviction loop *)
Definition _cache_put (key : string) (item : V) (cache : OD.t V) : res unit * OD.t V :=
  evict (OD.setitem key item cache).

(* A sequence of puts, each on the cache the previous one left: the
   outcome of every put, in order. *)
Fixpoint put_each (ops : list (string * V)) (cache : OD.t V) : list (res unit * OD.t V) :=
  match ops with
  | [] => []
  | (key, item) :: ops' =>
      let outcome := _cache_put key item cache in
      outcome :: put_each ops' (snd outcome)
  end.
End Cache.

(** ** Python strings and [re.sub("\W+", " ", query)]

    The query is a Python [str]: a sequence of Unicode code points, each
    a number.  Below 128 the word characters of [\W] are the ASCII
    letters, digits and the underscore; the Unicode table that
    classifies the other code points is a parameter.  The strings that
    the code only compares, joins and passes on stay [string]s. *)

Definition pystr : Type := list N.

(* the code points of a text of ASCII characters *)
Definition codes (s : string) : pystr := map N_of_ascii (list_ascii_of_string s).
Coercion codes : string >-> pystr.

Definition space : N := 32%N.
Definition underscore : N := 95%N.
Definition double_quote : N := 34%N.

Section Regex.
Variable isalnum_high : N -> bool.   (* Unicode alphanumerics from 128 on *)
Variable isspace_high : N -> bool.   (* Unicode whitespace from 128 on *)

Definition isalnum (c : N) : bool :=
  if (c <? 128)%N then
    ((48 <=? c) && (c <=? 57) || (65 <=? c) && (c <=? 90) || (97 <=? c) && (c <=? 122))%N
  else isalnum_high c.

(* \w: alphanumeric or underscore; \W is its complement *)
Definition is_word (c : N) : bool := isalnum c || (c =? underscore)%N.

(* Every maximal run of characters satisfying [p] becomes one space;
   [in_run] tells that the previous character belonged to a run. *)
Fixpoint sub_runs (p : N -> bool) (in_run : bool) (s : pystr) : pystr :=
  match s with
  | [] => []
  | c :: s' =>
      if p c then
        if in_run then sub_runs p true s' else space :: sub_runs p true s'
      else c :: sub_runs p false s'
  end.

Definition re_sub_W (query : pystr) : pystr :=
  sub_runs (fun c => negb (is_word c)) false query.

(** The sanitisation in words: the string is cut into its maximal runs,
    a run being consecutive characters on which [p] agrees; every run on
    which [p] holds is replaced by one space and the other runs stay. *)
Fixpoint runs (p : N -> bool) (s : pystr) : list (bool * pystr) :=
  match s with
  | [] => []
  | c :: s' =>
      match runs p s' with
      | (b, r) :: rest =>
          if Bool.eqb (p c) b then (b, c :: r) :: rest
          else (p c, [c]) :: (b, r) :: rest
      | [] => [(p c, [c])]
      end
  end.

Definition join_runs (l : list (bool * pystr)) : pystr :=
  fold_right (fun (br : bool * pystr) acc => (if fst br then [space] else snd br) ++ acc) [] l.

(* the characters of a run, in order, give the string back *)
Definition unsplit (l : list (bool * pystr)) : pystr :=
  fold_right (fun (br : bool * pystr) acc => snd br ++ acc) [] l.

Fixpoint all_chars (q : N -> bool) (s : pystr) : bool :=
  match s with
  | [] => true
  | c :: s' => q c && all_chars q s'
  end.

(* a run is not empty and [p] takes the value of the run on all of it *)
Definition is_run (p : N -> bool) (br : bool * pystr) : Prop :=
  snd br <> [] /\ all_chars (fun c => Bool.eqb (p c) (fst br)) (snd br) = true.

(* two neighbouring runs differ in the value of [p]: the runs are maximal *)
Fixpoint alternating (l : list (bool * pystr)) : Prop :=
  match l with
  | br :: ((br' :: _) as l') => fst br <> fst br' /\ alternating l'
  | _ => True
  end.

Definition replace_runs (p : N -> bool) (s : pystr) : pystr :=
  join_runs (runs p s).

(* whitespace: tab to carriage return, the separators 28 to 31, space *)
Definition isspace (c : N) : bool :=
  if (c <? 128)%N then
    ((9 <=? c) && (c <=? 13) || (28 <=? c) && (c <=? 31) || (c =? 32))%N
  else isspace_high c.

(* the runs of characters that are neither alphanumeric nor whitespace *)
Definition spec_sanitize (query : pystr) : pystr :=
  replace_runs (fun c => negb (isalnum c) && negb (isspace c)) query.
End Regex.

(** ** Data of the connector *)

(* The dict built in [_get_page] *)
Record serialized_page : Type := {
  title : string;
  text : string;
  url : string }.

(* Python object identity of a [serialized_page] dict *)
Abbreviation ref := nat.

(* A search hit: a JSON object, of which the string members are kept *)
Definition page := OD.t string.

(* The members of a page body that [_get_page] subscripts *)
(* The JSON object of a page response, as far as [_get_page] subscripts
   it: a member that the object lacks is [None]; the members that are
   there have the types of Confluence's schema. *)
Record page_json : Type := {
  json_links : option (option string);              (* ["_links"]["webui"] *)
  json_title : option string;                       (* ["title"] *)
  json_body : option (option (option string)) }.    (* ["body"]["storage"]["value"] *)

(* What [_get_page] reads in an object that has all the members *)
Record content : Type := {
  content_title : string;           (* content["title"] *)
  content_body_value : string;      (* content["body"]["storage"]["value"] *)
  content_webui : string }.         (* content["_links"]["webui"] *)

(* the object in which the subscripts give [c] *)
Definition json_of (c : content) : page_json :=
  {| json_links := Some (Some (content_webui c));
     json_title := Some (content_title c);
     json_body := Some (Some (Some (content_body_value c))) |}.

(* the members read, when none is missing *)
Definition complete (j : page_json) : option content :=
  match json_links j, json_title j, json_body j with
  | Some (Some webui), Some page_title, Some (Some (Some value)) =>
      Some {| content_title := page_title; content_body_value := value; content_webui := webui |}
  | _, _, _ => None
  end.

Inductive request : Type :=
  | SearchRequest (search_url : string) (cql : pystr) (limit : Z)
  | PageRequest (get_page_by_id_url : string).

(* What [requests.get] gives: a network failure, or a response with its
   status, its text and its JSON: [None] when the body is not a JSON
   object, [Some None] when the object has no "results" member. *)
Inductive search_response : Type :=
  | SearchNetworkFailure
  | SearchResponse (status_code : Z) (response_text : string)
                   (json : option (option (list page))).

(* What [session.get] gives: a timeout or connection error, or a
   response with [ok] and its JSON, [None] when the body is not JSON. *)
Inductive page_response : Type :=
  | PageNetworkFailure
  | PageResponse (ok : bool) (json : option page_json).

Record ConfluenceClient : Type := {
  base_url : string;
  user : string;
  api_token : string;
  search_limit : Z;
  CACHE_LIMIT_BYTES : Z;            (* class attribute, read through self *)
  cache : OD.t ref }.

Record state : Type := {
  self : ConfluenceClient;
  heap : list serialized_page;      (* the page dicts, by reference *)
  sent : list request }.            (* the requests issued so far *)

(** The libraries and the upstream service.  A response is a function of
    the requests issued before and of the request itself. *)
Class World : Type := {
  getsizeof : serialized_page -> N;                 (* sys.getsizeof *)
  stripped_text : string -> string;                 (* ' '.join(BeautifulSoup(text, "html.parser").stripped_strings) *)
  unicode_isalnum : N -> bool;                      (* the alphanumerics of re from 128 on *)
  requests_get : list request -> request -> search_response;
  session_get : list request -> request -> page_response }.

(** ** State and exceptions *)

Definition M (A : Type) : Type := state -> res A * state.

Definition ret {A} (a : A) : M A := fun s => (Ok a, s).
Definition raise {A} (e : exn) : M A := fun s => (Raise e, s).
Definition bind {A B} (m : M A) (k : A -> M B) : M B :=
  fun s => match m s with
           | (Ok a, s') => k a s'
           | (Raise e, s') => (Raise e, s')
           end.
Definition gets {A} (f : state -> A) : M A := fun s => (Ok (f s), s).
Definition modify (f : state -> state) : M unit := fun s => (Ok tt, f s).
Definition lift {A} (r : res A) : M A := fun s => (r, s).

Notation "x <- m ;; k" := (bind m (fun x => k))
  (at level 100, m at next level, right associativity).
Notation "m ;;; k" := (bind m (fun _ => k))
  (at level 100, right associativity).

Fixpoint mapM {A B} (f : A -> M B) (l : list A) : M (list B) :=
  match l with
  | [] => ret []
  | a :: l' => b <- f a ;; bs <- mapM f l' ;; ret (b :: bs)
  end.

Definition set_cache (c : OD.t ref) (s : state) : state :=
  {| self := {| base_url := base_url (self s); user := user (self s);
                api_token := api_token (self s); search_limit := search_limit (self s);
                CACHE_LIMIT_BYTES := CACHE_LIMIT_BYTES (self s); cache := c |};
     heap := heap s; sent := sent s |}.
Definition set_self (c : ConfluenceClient) (s : state) : state :=
  {| self := c; heap := heap s; sent := sent s |}.
Definition set_heap (h : list serialized_page) (s : state) : state :=
  {| self := self s; heap := h; sent := sent s |}.
Definition set_sent (l : list request) (s : state) : state :=
  {| self := self s; heap := heap s; sent := l |}.

(* the text around the query in the CQL: text ~ "...", then the order *)
Definition cql_before : pystr := codes "text ~ " ++ [double_quote].
Definition cql_after : pystr := double_quote :: codes " order by lastModified desc".

(** ** [ConfluenceClient] *)

Section Client.
Context `{World}.

Definition PAGE_TYPE : string := "type".
Definition PAGE_BODY_FORMAT : string := "storage".

(* d[key] on a dict read from JSON: KeyError when the member is missing *)
Definition subscript {A} (member : option A) (key : string) : res A :=
  match member with
  | Some v => Ok v
  | None => Raise (KeyError key)
  end.

(* ConfluenceClient(url, user, api_token, search_limit) *)
Definition new_client (url usr token : string) (limit : Z) : ConfluenceClient :=
  {| base_url := url; user := usr; api_token := token; search_limit := limit;
     CACHE_LIMIT_BYTES := 20 * 1024 * 1024; cache := [] |}.

(* sys.getsizeof of the dict a reference points to *)
Definition sizeof_ref (h : list serialized_page) (r : ref) : N :=
  match h !! r with Some d => getsizeof d | None => 0%N end.

Definition cache_size (s : state) : Z :=
  _cache_size (sizeof_ref (heap s)) (cache (self s)).

Definition cache_get (key : string) : M ref :=
  fun s => let '(r, c) := _cache_get key (cache (self s)) in (r, set_cache c s).

Definition cache_put (key : string) (item : ref) : M unit :=
  fun s => let '(r, c) := _cache_put (sizeof_ref (heap s)) (CACHE_LIMIT_BYTES (self s))
                            key item (cache (self s)) in
           (r, set_cache c s).

(* a dict display: a fresh object *)
Definition alloc (d : serialized_page) : M ref :=
  fun s => (Ok (length (heap s)), set_heap (heap s ++ [d]) s).

(* requests.get(...) and session.get(...): the request leaves *)
Definition do_requests_get (req : request) : M search_response :=
  fun s => (Ok (requests_get (sent s) req), set_sent (sent s ++ [req]) s).
Definition do_session_get (req : request) : M page_response :=
  fun s => (Ok (session_get (sent s) req), set_sent (sent s ++ [req]) s).

(** A [_get_page] coroutine runs up to [session.get], where it waits
    for the response, or finishes at once on a cache hit. *)
Inductive task : Type :=
  | Finished (result : option ref)
  | Suspended (page_id : string) (response : page_response).

(* _get_page, up to the response *)
Definition _get_page_start (page_id : string) : M task :=
  c <- gets (fun s => cache (self s)) ;;
  if OD.contains page_id c then
    r <- cache_get page_id ;; ret (Finished (Some r))
  else
    url <- gets (fun s => base_url (self s)) ;;
    let get_page_by_id_url := url +:+ "/wiki/api/v2/pages/" +:+ page_id in
    response <- do_session_get (PageRequest get_page_by_id_url) ;;
    ret (Suspended page_id response).

(* _get_page, from the response on *)
Definition _get_page_resume (page_id : string) (response : page_response) : M (option ref) :=
  match response with
  | PageNetworkFailure => raise ClientError
  | PageResponse ok body =>
      if negb ok then ret None
      else
        match body with
        | None => raise JSONDecodeError
        | Some content =>
            url <- gets (fun s => base_url (self s)) ;;
            links <- lift (subscript (json_links content) "_links") ;;
            webui <- lift (subscript links "webui") ;;
            let page_url := url +:+ "/wiki" +:+ webui in
            page_title <- lift (subscript (json_title content) "title") ;;
            body <- lift (subscript (json_body content) "body") ;;
            storage <- lift (subscript body PAGE_BODY_FORMAT) ;;
            value <- lift (subscript storage "value") ;;
            serialized_page <- alloc {| title := page_title;
                                        text := value;
                                        url := page_url |} ;;
            cache_put page_id serialized_page ;;;
            r <- cache_get page_id ;;
            ret (Some r)
        end
  end.

(* one _get_page awaited on its own *)
Definition _get_page (page_id : string) : M (option ref) :=
  t <- _get_page_start page_id ;;
  match t with
  | Finished r => ret r
  | Suspended id response => _get_page_resume id response
  end.

(* [page["id"] for page in pages if self.PAGE_TYPE in page] *)
Fixpoint page_ids (pages : list page) : res (list string) :=
  match pages with
  | [] => Ok []
  | p :: pages' =>
      if OD.contains PAGE_TYPE p then
        match OD.getitem "id" p with
        | None => Raise (KeyError "id")
        | Some page_id =>
            match page_ids pages' with
            | Ok ids => Ok (page_id :: ids)
            | Raise e => Raise e
            end
        end
      else page_ids pages'
  end.

(* the response of task [i] arrives and the task runs to its end *)
Definition wake (i : nat) (tasks : list task) : M (list task) :=
  match tasks !! i with
  | Some (Suspended page_id response) =>
      r <- _get_page_resume page_id response ;;
      ret (<[i := Finished r]> tasks)
  | _ => ret tasks
  end.

Fixpoint settle (order : list nat) (tasks : list task) : M (list task) :=
  match order with
  | [] => ret tasks
  | i :: order' => tasks' <- wake i tasks ;; settle order' tasks'
  end.

Definition task_result (t : task) : option ref :=
  match t with
  | Finished r => r
  | Suspended _ _ => None
  end.

(** [asyncio.gather] over the tasks: every task is started in the order of
    the list and runs to its first suspension; the responses then
    arrive in the order [arrival] (task indices; the tasks it leaves
    out follow in index order); the first exception of a task is that
    of the batch; the results are those of the tasks, by index. *)
Definition _gather (arrival : list nat) (pages : list page) : M (list (option ref)) :=
  ids <- lift (page_ids pages) ;;
  tasks <- mapM _get_page_start ids ;;
  tasks' <- settle (arrival ++ seq 0 (length tasks)) tasks ;;
  ret (map task_result tasks').

Definition search_pages (query : pystr) : M (list page) :=
  url <- gets (fun s => base_url (self s)) ;;
  limit <- gets (fun s => search_limit (self s)) ;;
  let search_url := url +:+ "/wiki/rest/api/content/search" in
  let formatted_query := re_sub_W unicode_isalnum query in
  let cql := cql_before ++ formatted_query ++ cql_after in
  response <- do_requests_get (SearchRequest search_url cql limit) ;;
  match response with
  | SearchNetworkFailure => raise RequestException
  | SearchResponse status_code response_text json =>
      if negb (status_code =? 200) then
        raise (UpstreamProviderError ("Error during Confluence search: " +:+ response_text))
      else
        match json with
        | None => raise JSONDecodeError
        | Some None => ret []
        | Some (Some results) => ret results
        end
  end.

(* the session and the event loop carry no state of their own here *)
Definition fetch_pages (arrival : list nat) (pages : list page) : M (list (option ref)) :=
  _gather arrival pages.

(* page['text'] = ' '.join(BeautifulSoup(page['text'], "html.parser").stripped_strings) *)
Definition strip_page (p : ref) : M unit :=
  modify (fun s =>
    set_heap (alter (fun d => {| title := title d;
                                 text := stripped_text (text d);
                                 url := url d |}) p (heap s)) s).

Definition search (arrival : list nat) (query : pystr) : M (list ref) :=
  pages <- search_pages query ;;
  fetched <- fetch_pages arrival pages ;;
  let pages := omap id fetched in
  mapM strip_page pages ;;;
  ret pages.
End Client.

(** ** [api/models.py], [get_client] and the [/search] route *)

Record Settings : Type := {
  confluence_user : string;
  confluence_api_token : string;
  confluence_product_url : string;
  confluence_connector_api_key : string;
  confluence_search_limit : Z;
  items_per_user : Z }.

(* a new client, with a new cache, at every call *)
Definition get_client (settings : Settings) : ConfluenceClient :=
  new_client (confluence_product_url settings) (confluence_user settings)
             (confluence_api_token settings) (confluence_search_limit settings).

Definition deref (h : list serialized_page) (r : ref) : serialized_page :=
  default {| title := EmptyString; text := EmptyString; url := EmptyString |} (h !! r).

Module routes.
Section Routes.
Context `{World}.
Variable settings : Settings.

(* the body of the response is {"results": data}: the dicts as they
   are when the route returns *)
Definition search (arrival : list nat) (query : pystr) : M (list serialized_page) :=
  modify (set_self (get_client settings)) ;;;
  fun s =>
    match search arrival query s with
    | (Ok data, s') => (Ok (map (deref (heap s')) data), s')
    | (Raise (UpstreamProviderError message), s') => (Raise (HTTPException 502 message), s')
    | (Raise e, s') => (Raise e, s')
    end.
End Routes.
End routes.

(* the dict that [_get_page] builds from a body *)
Definition page_of (base : string) (c : content) : serialized_page :=
  {| title := content_title c;
     text := content_body_value c;
     url := base +:+ "/wiki" +:+ content_webui c |}.

(* Every reference held by the cache points into the heap *)
Definition cache_refs_valid (s : state) : Prop :=
  Forall (fun e : string * ref => (snd e < length (heap s))%nat) (cache (self s)).

(** ** Concrete worlds and states used to run the model *)

Definition demo_settings : Settings :=
  {| confluence_user := "bot"; confluence_api_token := "token";
     confluence_product_url := "https://wiki.example"; confluence_connector_api_key := "key";
     confluence_search_limit := 8; items_per_user := 50 |}.

(* A process that has not created any page dict nor sent any request *)
Definition fresh_state (c : ConfluenceClient) : state :=
  {| self := c; heap := []; sent := [] |}.

Definition demo_client : ConfluenceClient := get_client demo_settings.

Definition hit (page_id : string) : page := [("id", page_id); ("type", "page")].

Definition demo_content (n : string) : content :=
  {| content_title := "Page " +:+ n;
     content_body_value := "<p>body " +:+ n +:+ "</p>";
     content_webui := "/spaces/X/pages/" +:+ n |}.

(* Removes the tags of a text: what BeautifulSoup's stripped strings,
   joined by spaces, give on a text of one tagged paragraph. *)
Fixpoint drop_tags (in_tag : bool) (s : string) : string :=
  match s with
  | EmptyString => EmptyString
  | String c s' =>
      if Ascii.eqb c "<"%char then drop_tags true s'
      else if Ascii.eqb c ">"%char then drop_tags false s'
      else if in_tag then drop_tags in_tag s'
      else String c (drop_tags in_tag s')
  end.

(* CPython's size of a three-key dict does not depend on its values *)
Definition dict_size : serialized_page -> N := fun _ => 184%N.

(* The search request is answered 200 with the hits [hits]; a page
   request is answered 200 with the page whose number ends the URL,
   except that the [k]-th request of the process (counted from 0) is
   answered by [nth_answer k] when that is given. *)
Definition url_page_id (u : string) : string :=
  String.substring (String.length u - 1) 1 u.

(* the part of the Unicode table the examples need: the CJK unified
   ideographs, 4E00 to 9FFF, are alphanumeric *)
Definition demo_isalnum (c : N) : bool := ((19968 <=? c) && (c <=? 40959))%N.

Definition scripted_world (hits : list page) (nth_answer : nat -> option page_response) : World :=
  {| getsizeof := dict_size;
     stripped_text := drop_tags false;
     unicode_isalnum := demo_isalnum;
     requests_get := fun _ _ => SearchResponse 200 "{...}" (Some (Some hits));
     session_get := fun history req =>
       match nth_answer (length history), req with
       | Some answer, _ => answer
       | None, PageRequest u => PageResponse true (Some (json_of (demo_content (url_page_id u))))
       | None, _ => PageNetworkFailure
       end |}.

(* the search finds pages 1 and 2 and both are served *)
Definition world_served : World :=
  scripted_world [hit "1"; hit "2"] (fun _ => None).

(* the same, but the second request of the process, the one for page 1
   after the search request, times out *)
Definition world_timeout : World :=
  scripted_world [hit "1"; hit "2"]
                 (fun k => if Nat.eqb k 1 then Some PageNetworkFailure else None).

(* every page request is answered 404 *)
Definition world_not_found : World :=
  scripted_world [hit "1"] (fun _ => Some (PageResponse false None)).

(* every page request is answered 200 with a body that is not JSON *)
Definition world_bad_body : World :=
  scripted_world [hit "1"] (fun _ => Some (PageResponse true None)).


(* the search finds one hit without a type and nothing else *)
Definition world_untyped : World :=
  scripted_world [[("id", "7")]] (fun _ => None).

(* a client that has fetched page 1, and nothing else *)
Definition warm_state : state :=
  snd (_get_page (H := world_served) "1" (fresh_state demo_client)).

(* A client of the route's settings that has already fetched [n] pages,
   p0, p1, ..., none of them evicted: the cache holds one dict each. *)
Definition key_of (i : nat) : string := "p" +:+ NilEmpty.string_of_uint (Nat.to_uint i).

Definition crowded_state (n : nat) : state :=
  set_heap (repeat (page_of "https://wiki.example" (demo_content "0")) n)
    (set_cache (map (fun i => (key_of i, i)) (seq 0 n)) (fresh_state demo_client)).

(** ** What a batch owes to each reference *)

(* The exceptions a page fetch can end with *)
Definition fetch_failure (e : exn) : Prop :=
  match e with
  | KeyError _ | ClientError | JSONDecodeError => True
  | _ => False
  end.

(* The result owed to a task, given the task as it stood when all tasks
   had been started: the cached dict of a hit; nothing for a response
   that is not ok; a dict made of the body of a response that is. *)
Definition settled (base : string) (h : list serialized_page) (t0 : task) (slot : option ref) : Prop :=
  match t0 with
  | Finished r => slot = r
  | Suspended _ PageNetworkFailure => False
  | Suspended _ (PageResponse false _) => slot = None
  | Suspended _ (PageResponse true None) => False
  | Suspended _ (PageResponse true (Some j)) =>
      match complete j with
      | None => False
      | Some c => exists r : ref, slot = Some r /\ h !! r = Some (page_of base c)
      end
  end.

(* [tasks] stem from [tasks0]: each task is as it was started, or has
   finished with the result owed to it *)
Definition progress (base : string) (h : list serialized_page) (tasks0 tasks : list task) : Prop :=
  length tasks = length tasks0 /\
  forall i t0, tasks0 !! i = Some t0 ->
    tasks !! i = Some t0 \/
    exists slot, tasks !! i = Some (Finished slot) /\ settled base h t0 slot.

(* The task of [page_id] once every task of a batch has been started
   from state [s], [earlier] being the identifiers before it. *)
Definition started `{World} (s : state) (earlier : list string) (page_id : string) : task :=
  let get_page_by_id_url id := base_url (self s) +:+ "/wiki/api/v2/pages/" +:+ id in
  match OD.getitem page_id (cache (self s)) with
  | Some r => Finished (Some r)
  | None =>
      let missed := List.filter (fun id => negb (OD.contains id (cache (self s)))) earlier in
      Suspended page_id
        (session_get (sent s ++ map (fun id => PageRequest (get_page_by_id_url id)) missed)
                     (PageRequest (get_page_by_id_url page_id)))
  end.

(* The result owed to the [i]-th of the identifiers [ids] by a batch
   that starts in state [s] and ends in state [s'] *)
Definition owed `{World} (s s' : state) (ids : list string) (i : nat) (slot : option ref) : Prop :=
  match ids !! i with
  | Some page_id => settled (base_url (self s)) (heap s') (started s (take i ids) page_id) slot
  | None => False
  end.

(* what the normalisation of [search] does to one dict *)
Definition strip_text `{World} (d : serialized_page) : serialized_page :=
  {| title := title d; text := stripped_text (text d); url := url d |}.

(* the request of [search_pages] *)
Definition search_request `{World} (query : pystr) (s : state) : request :=
  SearchRequest (base_url (self s) +:+ "/wiki/rest/api/content/search")
                (cql_before ++ re_sub_W unicode_isalnum query ++ cql_after)
                (search_limit (self s)).

(** ** [api/helpers.py] and the route with its dependency *)

Record HTTPAuthorizationCredentials : Type := {
  scheme : string;
  credentials : string }.

(* CustomBearer.__call__: [inherited] is what HTTPBearer.__call__ gives
   for the request, the credentials of the Authorization header, None,
   or the exception it raises *)
Definition CustomBearer_call (settings : Settings)
    (inherited : res (option HTTPAuthorizationCredentials)) : res string :=
  match inherited with
  | Raise e => Raise e
  | Ok (Some creds) =>
      if negb (String.eqb (scheme creds) "Bearer") then
        Raise (HTTPException 403 "Invalid authentication scheme.")
      else if negb (String.eqb (credentials creds) (confluence_connector_api_key settings)) then
        Raise (HTTPException 403 "Invalid authentication credentials.")
      else Ok (credentials creds)
  | Ok None => Raise (HTTPException 403 "Invalid authorization code.")
  end.

(* POST /search: the dependency runs first, the handler only if it
   returns *)
Definition post_search `{World} (settings : Settings)
    (inherited : res (option HTTPAuthorizationCredentials))
    (arrival : list nat) (query : pystr) : M (list serialized_page) :=
  lift (CustomBearer_call settings inherited) ;;;
  routes.search settings arrival query.

(** ** Relations between the state before and after a run *)

Definition keeps {A} (R : state -> state -> Prop) (m : M A) : Prop :=
  forall s, R s (snd (m s)).

(* the client's settings and the requests sent are as before, and the
   dicts that existed are untouched: the heap has only grown *)
Definition only_allocates (s s' : state) : Prop :=
  base_url (self s') = base_url (self s) /\
  CACHE_LIMIT_BYTES (self s') = CACHE_LIMIT_BYTES (self s) /\
  sent s' = sent s /\
  exists ext, heap s' = heap s ++ ext.

(* the references of the cache stay valid *)
Definition stays_valid (s s' : state) : Prop :=
  cache_refs_valid s -> cache_refs_valid s'.

(* the URL of the page request of [_get_page] *)
Definition page_request (s : state) (page_id : string) : request :=
  PageRequest (base_url (self s) +:+ "/wiki/api/v2/pages/" +:+ page_id).

(* the identifiers that are not cached in [s] *)
Definition missing (s : state) (ids : list string) : list string :=
  List.filter (fun id => negb (OD.contains id (cache (self s)))) ids.

(* The dicts that the tasks waiting in [tasks0] have created so far are
   in the heap and are pairwise distinct objects *)
Definition created (h : list serialized_page) (tasks0 tasks : list task) (i : nat) (r : nat) : Prop :=
  exists page_id response,
    tasks0 !! i = Some (Suspended page_id response) /\ tasks !! i = Some (Finished (Some r)).

Definition distinct_dicts (h : list serialized_page) (tasks0 tasks : list task) : Prop :=
  (forall i r, created h tasks0 tasks i r -> (r < length h)%nat) /\
  (forall i j r, created h tasks0 tasks i r -> created h tasks0 tasks j r -> i = j).

(* What a call of the route returns for the [i]-th typed hit, [s0]
   being the state when the pages are requested: the stripped page of an
   ok response, nothing otherwise *)
Definition route_record `{World} (s0 : state) (ids : list string) (i : nat) : option serialized_page :=
  match ids !! i with
  | Some page_id =>
      match session_get (sent s0 ++ map (page_request s0) (take i ids))
                        (page_request s0 page_id) with
      | PageResponse true (Some j) =>
          match complete j with
          | Some c => Some (strip_text (page_of (base_url (self s0)) c))
          | None => None
          end
      | _ => None
      end
  | None => None
  end.

(** ** The cache and the results of a batch *)

(* Each waiting task waits for the identifier of its slot *)
Definition waits_in_place (ids : list string) (tasks : list task) : Prop :=
  forall i page_id response,
    tasks !! i = Some (Suspended page_id response) -> ids !! i = Some page_id.

(* What the cache holds for an identifier of the batch is a result of
   the batch: a task of that identifier has finished with it *)
Definition cached_are_results (ids : list string) (tasks : list task) (s : state) : Prop :=
  forall k r, k ∈ ids -> OD.getitem k (cache (self s)) = Some r ->
    exists i, ids !! i = Some k /\ tasks !! i = Some (Finished (Some r)).

(* The converse: the identifier of a waiting task is not cached, and the
   result of a finished one is what the cache holds for its identifier *)
Definition results_are_cached (ids : list string) (tasks : list task) (s : state) : Prop :=
  (forall i page_id response,
     tasks !! i = Some (Suspended page_id response) ->
     OD.getitem page_id (cache (self s)) = None) /\
  (forall i page_id r,
     ids !! i = Some page_id -> tasks !! i = Some (Finished (Some r)) ->
     OD.getitem page_id (cache (self s)) = Some r).

(** * Properties *)

(** ** The ordered dictionary *)

Section DictFacts.
Context {V : Type}.
Implicit Types (d : OD.t V) (k : string) (v : V).

Lemma popitem_Ok d e d' : OD.popitem d = Ok (e, d') -> d = d' ++ [e].
Proof.
  unfold OD.popitem. intros Hp.
  destruct (rev d) as [|x r] eqn:E; [discriminate|].
  inversion Hp; subst.
  rewrite <- (rev_involutive d), E. reflexivity.
Qed.

Lemma popitem_Raise d e : OD.popitem d = Raise e -> d = [].
Proof.
  unfold OD.popitem. intros Hp.
  destruct (rev d) as [|x r] eqn:E; [|discriminate].
  rewrite <- (rev_involutive d), E. reflexivity.
Qed.

Lemma contains_getitem k d : OD.contains k d = true <-> is_Some (OD.getitem k d).
Proof.
  induction d as [|[k' v'] d IH]; simpl.
  - split; [discriminate | intros [? ?]; discriminate].
  - destruct (String.eqb k k'); simpl; [split; eauto | exact IH].
Qed.

Lemma getitem_setitem k v d : OD.getitem k (OD.setitem k v d) = Some v.
Proof.
  induction d as [|[k' v'] d IH]; simpl.
  - rewrite String.eqb_refl. reflexivity.
  - destruct (String.eqb k k') eqn:E; simpl.
    + rewrite String.eqb_refl. reflexivity.
    + rewrite E. exact IH.
Qed.

Lemma setitem_nonempty k v d : (0 < length (OD.setitem k v d))%nat.
Proof.
  destruct d as [|[k' v'] d]; simpl; [lia|].
  destruct (String.eqb k k'); simpl; lia.
Qed.

Lemma getitem_take k v d n : OD.getitem k (take n d) = Some v -> OD.getitem k d = Some v.
Proof.
  revert n. induction d as [|[k' v'] d IH]; intros [|n]; simpl; try discriminate.
  destruct (String.eqb k k'); [tauto | apply IH].
Qed.

Lemma getitem_take_None k d n : OD.getitem k d = None -> OD.getitem k (take n d) = None.
Proof.
  revert n. induction d as [|[k' v'] d IH]; intros [|n]; simpl; try reflexivity.
  destruct (String.eqb k k'); [discriminate | apply IH].
Qed.

Lemma contains_false k d : OD.contains k d = false -> OD.getitem k d = None.
Proof.
  intros Hc. destruct (OD.getitem k d) eqn:E; [|reflexivity].
  assert (OD.contains k d = true) by (apply contains_getitem; eauto). congruence.
Qed.

Lemma setitem_fresh k v d : OD.getitem k d = None -> OD.setitem k v d = d ++ [(k, v)].
Proof.
  induction d as [|[k' v'] d IH]; simpl; [reflexivity|].
  destruct (String.eqb k k'); [discriminate|]. intros Hg. rewrite IH by exact Hg. reflexivity.
Qed.

Lemma getitem_app_l k v d d' :
  OD.getitem k d = Some v -> OD.getitem k (d ++ d') = Some v.
Proof.
  induction d as [|[k' v'] d IH]; simpl; [discriminate|].
  destruct (String.eqb k k'); [tauto | exact IH].
Qed.

Lemma getitem_delitem k d : OD.getitem k (OD.delitem k d) = None.
Proof.
  induction d as [|[k' v'] d IH]; simpl; [reflexivity|].
  unfold OD.delitem in *. simpl.
  destruct (String.eqb k k') eqn:E; simpl; [|rewrite E]; exact IH.
Qed.

Lemma getitem_app_r k d d' :
  OD.getitem k d = None -> OD.getitem k (d ++ d') = OD.getitem k d'.
Proof.
  induction d as [|[k' v'] d IH]; simpl; [reflexivity|].
  destruct (String.eqb k k'); [discriminate | exact IH].
Qed.

Lemma delitem_app k d d' : OD.delitem k (d ++ d') = OD.delitem k d ++ OD.delitem k d'.
Proof. unfold OD.delitem. apply List.filter_app. Qed.

Lemma getitem_moved k v d : OD.getitem k (OD.delitem k d ++ [(k, v)]) = Some v.
Proof.
  rewrite getitem_app_r by apply getitem_delitem.
  simpl. rewrite String.eqb_refl. reflexivity.
Qed.
Lemma getitem_delitem_ne k k' d :
  String.eqb k k' = false -> OD.getitem k (OD.delitem k' d) = OD.getitem k d.
Proof.
  intros Hne. induction d as [|[k0 v0] d IH]; [reflexivity|].
  unfold OD.delitem in *. simpl.
  destruct (String.eqb k' k0) eqn:E'; simpl.
  - apply String.eqb_eq in E'. subst k0. rewrite Hne. exact IH.
  - destruct (String.eqb k k0); [reflexivity | exact IH].
Qed.

(* moving an entry to the end changes no lookup *)
Lemma getitem_move k' v d :
  OD.getitem k' d = Some v ->
  forall k, OD.getitem k (OD.delitem k' d ++ [(k', v)]) = OD.getitem k d.
Proof.
  intros Hg k. destruct (String.eqb k k') eqn:E.
  - apply String.eqb_eq in E. subst k'. rewrite getitem_moved. symmetry. exact Hg.
  - destruct (OD.getitem k (OD.delitem k' d)) as [v'|] eqn:Hd.
    + rewrite (getitem_app_l k v') by exact Hd.
      rewrite <- (getitem_delitem_ne k k' d E). symmetry. exact Hd.
    + rewrite getitem_app_r by exact Hd. simpl. rewrite E.
      rewrite <- (getitem_delitem_ne k k' d E). symmetry. exact Hd.
Qed.

Lemma contains_ext k d d' :
  OD.getitem k d = OD.getitem k d' -> OD.contains k d = OD.contains k d'.
Proof.
  intros Heq.
  destruct (OD.contains k d) eqn:E, (OD.contains k d') eqn:E'; try reflexivity.
  - apply contains_getitem in E. rewrite Heq in E. apply contains_getitem in E. congruence.
  - apply contains_getitem in E'. rewrite <- Heq in E'. apply contains_getitem in E'. congruence.
Qed.
End DictFacts.

(** ** The cache methods *)

Section CacheFacts.
Context {V : Type} (sizeof : V -> N) (C : Z).
Implicit Types (d : OD.t V).

Lemma evict_step d :
  evict sizeof C d =
  if C <? _cache_size sizeof d then
    match OD.popitem d with
    | Raise e => (Raise e, d)
    | Ok (_, d') => evict sizeof C d'
    end
  else (Ok tt, d).
Proof.
  funelim (evict sizeof C d);
    try match goal with E : OD.popitem _ = _ |- _ => rewrite E end;
    match goal with E : (_ <? _) = _ |- _ => rewrite E end;
    reflexivity.
Qed.

Lemma fold_add_init (l : list Z) a :
  fold_left (fun a b => a + b) l a = a + fold_left (fun a b => a + b) l 0.
Proof.
  revert a. induction l as [|x l IH]; intros a; simpl; [lia|].
  rewrite (IH (a + x)), (IH (0 + x)). lia.
Qed.

Lemma cache_size_cons e d :
  _cache_size sizeof (e :: d) = Z.of_N (sizeof (snd e)) + _cache_size sizeof d.
Proof. unfold _cache_size. simpl. apply fold_add_init. Qed.

Lemma cache_size_app d d' :
  _cache_size sizeof (d ++ d') = _cache_size sizeof d + _cache_size sizeof d'.
Proof.
  induction d as [|e d IH]; [reflexivity|].
  simpl. rewrite !cache_size_cons, IH. lia.
Qed.

Lemma cache_size_nonneg d : 0 <= _cache_size sizeof d.
Proof.
  induction d as [|e d IH]; [reflexivity|].
  rewrite cache_size_cons. lia.
Qed.

Lemma cache_size_take_mono d (n m : nat) :
  (n <= m)%nat -> _cache_size sizeof (take n d) <= _cache_size sizeof (take m d).
Proof.
  revert n m. induction d as [|e d IH]; intros [|n] [|m] Hnm; simpl; try lia.
  - apply cache_size_nonneg.
  - rewrite !cache_size_cons. specialize (IH n m). lia.
Qed.

(** The loop leaves the longest prefix of the order that fits the
    ceiling; it raises only when even the empty cache does not fit. *)
Lemma evict_prefix d :
  exists n : nat,
    (n <= length d)%nat /\ snd (evict sizeof C d) = take n d /\
    (forall m : nat, (n < m <= length d)%nat -> C < _cache_size sizeof (take m d)) /\
    match fst (evict sizeof C d) with
    | Ok _ => _cache_size sizeof (take n d) <= C
    | Raise e => n = 0%nat /\ C < 0 /\ e = KeyError "dictionary is empty"
    end.
Proof.
  remember (length d) as len eqn:Hlen. revert d Hlen.
  induction len as [|len IH]; intros d Hlen; rewrite evict_step.
  - destruct d; [|discriminate].
    exists 0%nat. destruct (C <? _cache_size sizeof []) eqn:E; simpl.
    + apply Z.ltb_lt in E. repeat split; solve [lia | exact E].
    + apply Z.ltb_ge in E. repeat split; solve [lia | exact E].
  - destruct (C <? _cache_size sizeof d) eqn:E.
    + apply Z.ltb_lt in E.
      destruct (OD.popitem d) as [[e d']|e] eqn:Hp.
      * apply popitem_Ok in Hp. subst d.
        rewrite length_app in Hlen. simpl in Hlen.
        destruct (IH d' ltac:(lia)) as (n & Hn & Hsnd & Hover & Hfst).
        exists n. rewrite !take_app_le by lia.
        repeat split; try assumption; try lia.
        intros m Hm. destruct (decide (m <= length d')%nat).
        -- rewrite take_app_le by lia. apply Hover. lia.
        -- rewrite take_ge by (rewrite length_app; simpl; lia). exact E.
      * apply popitem_Raise in Hp. subst d. discriminate.
    + apply Z.ltb_ge in E. exists (length d). simpl.
      rewrite take_ge by lia. repeat split; lia.
Qed.
End CacheFacts.

Section CacheClaims.
Context {V : Type} (sizeof : V -> N).
Implicit Types (d cache : OD.t V) (C : Z).

Lemma cache_put_prefix C key item cache :
  exists n : nat,
    (n <= length (OD.setitem key item cache))%nat /\
    snd (_cache_put sizeof C key item cache) = take n (OD.setitem key item cache) /\
    (forall m : nat, (n < m <= length (OD.setitem key item cache))%nat ->
                     C < _cache_size sizeof (take m (OD.setitem key item cache))) /\
    match fst (_cache_put sizeof C key item cache) with
    | Ok _ => _cache_size sizeof (snd (_cache_put sizeof C key item cache)) <= C
    | Raise e => n = 0%nat /\ C < 0 /\ e = KeyError "dictionary is empty"
    end.
Proof.
  unfold _cache_put.
  destruct (evict_prefix sizeof C (OD.setitem key item cache)) as (n & Hn & Hsnd & Hover & Hfst).
  exists n. rewrite Hsnd. auto.
Qed.

(** C4. For every ceiling [C], every sequence of puts and every cache
    it starts from: after each put that completes, the sum of the size
    estimates of the cached values is at most [C], and a put fails to
    complete only under a negative ceiling.  The eviction is part of
    the put: what a put leaves is the longest prefix of the updated
    order that fits the ceiling, the entries beyond it having been
    popped from the end one at a time. *)
Theorem cache_size_within_ceiling :
  forall C (ops : list (string * V)) cache,
    Forall (fun outcome =>
              match fst outcome with
              | Ok _ => _cache_size sizeof (snd outcome) <= C
              | Raise _ => C < 0
              end)
           (put_each sizeof C ops cache)
    /\ forall key item, exists n : nat,
         snd (_cache_put sizeof C key item cache) = take n (OD.setitem key item cache)
         /\ forall m : nat, (n < m <= length (OD.setitem key item cache))%nat ->
              C < _cache_size sizeof (take m (OD.setitem key item cache)).
Proof.
  intros C ops cache. split.
  - revert cache. induction ops as [|[key item] ops IH]; intros cache; simpl.
    + constructor.
    + constructor; [|apply IH].
      destruct (cache_put_prefix C key item cache) as (n & _ & _ & _ & Hfst).
      destruct (fst (_cache_put sizeof C key item cache)); tauto.
  - intros key item.
    destruct (cache_put_prefix C key item cache) as (n & _ & Hsnd & Hover & _).
    exists n. auto.
Qed.

(** C6. A get on a present key moves its entry to the last place of
    the order, the most recently used end, and returns its value; a
    put that overflows the ceiling evicts from that same end: what
    survives is a proper prefix of the updated order, and exactly the
    longest prefix that fits the ceiling, every longer one being over
    it; so the entries at the most recently inserted end are removed,
    a new key's entry first among them, and the entries at the least
    recently used end are kept for as long as they fit. *)
Theorem recency_discipline :
  forall C key cache v key' item,
    OD.getitem key cache = Some v ->
    C < _cache_size sizeof (OD.setitem key' item cache) ->
    _cache_get key cache = (Ok v, OD.delitem key cache ++ [(key, v)])
    /\ exists n : nat,
         (n < length (OD.setitem key' item cache))%nat /\
         snd (_cache_put sizeof C key' item cache) = take n (OD.setitem key' item cache) /\
         (forall m : nat, (n < m <= length (OD.setitem key' item cache))%nat ->
                          C < _cache_size sizeof (take m (OD.setitem key' item cache))) /\
         match fst (_cache_put sizeof C key' item cache) with
         | Ok _ => _cache_size sizeof (take n (OD.setitem key' item cache)) <= C
         | Raise e => n = 0%nat /\ C < 0 /\ e = KeyError "dictionary is empty"
         end /\
         (OD.getitem key' cache = None ->
          snd (_cache_put sizeof C key' item cache) = take n cache /\
          OD.getitem key' (snd (_cache_put sizeof C key' item cache)) = None).
Proof.
  intros C key cache v key' item Hget Hover. split.
  - unfold _cache_get, OD.move_to_end. rewrite Hget, getitem_moved. reflexivity.
  - destruct (cache_put_prefix C key' item cache) as (n & Hn & Hsnd & Hmax & Hfst).
    assert (n < length (OD.setitem key' item cache))%nat as Hlt.
    { destruct (decide (n = length (OD.setitem key' item cache))) as [Heq|]; [|lia].
      rewrite Heq, take_ge in Hsnd by lia.
      destruct (fst (_cache_put sizeof C key' item cache)).
      - rewrite Hsnd in Hfst. lia.
      - destruct Hfst as [Hz _]. pose proof (setitem_nonempty key' item cache). lia. }
    exists n. split; [exact Hlt|]. split; [exact Hsnd|]. split; [exact Hmax|]. split.
    + rewrite Hsnd in Hfst. exact Hfst.
    + intros Hnew. rewrite Hsnd. rewrite setitem_fresh in * by exact Hnew.
      rewrite length_app in Hlt. simpl in Hlt.
      rewrite take_app_le by lia. split; [reflexivity|].
      apply getitem_take_None. exact Hnew.
Qed.
End CacheClaims.

(* Three dicts of 184 bytes under a ceiling of 400: the put of "c"
   leaves "a" and "b", the entry just inserted being the one evicted. *)
Lemma recency_discipline_witness :
  _cache_get "a" [("a", 0%nat); ("b", 1%nat)] = (Ok 0%nat, [("b", 1%nat); ("a", 0%nat)]) /\
  snd (_cache_put (fun _ : nat => 184%N) 400 "c" 2%nat [("a", 0%nat); ("b", 1%nat)])
  = [("a", 0%nat); ("b", 1%nat)].
Proof.
  destruct (recency_discipline (fun _ : nat => 184%N) 400 "a" [("a", 0%nat); ("b", 1%nat)]
              0%nat "c" 2%nat eq_refl eq_refl)
    as (Hget & n & Hlt & Hsnd & Hmax & _ & _).
  split; [exact Hget|]. rewrite Hsnd.
  destruct n as [|[|[|n]]].
  - specialize (Hmax 2%nat ltac:(simpl; lia)). vm_compute in Hmax. discriminate.
  - specialize (Hmax 2%nat ltac:(simpl; lia)). vm_compute in Hmax. discriminate.
  - reflexivity.
  - simpl in Hlt. lia.
Defined.

(** ** The query sent to the search *)

Section RegexFacts.
Variable p : N -> bool.

Lemma sub_runs_join (s : pystr) :
  sub_runs p false s = join_runs (runs p s) /\
  sub_runs p true s =
    match runs p s with
    | (true, _) :: rest => join_runs rest
    | l => join_runs l
    end.
Proof.
  induction s as [|c s [IHf IHt]]; [split; reflexivity|].
  simpl. destruct (p c) eqn:Hc.
  - rewrite IHt. destruct (runs p s) as [|[[|] r] rest]; simpl; auto.
  - rewrite IHf. destruct (runs p s) as [|[[|] r] rest]; simpl; auto.
Qed.

Lemma runs_concat (s : pystr) :
  unsplit (runs p s) = s.
Proof.
  unfold unsplit. induction s as [|c s IH]; [reflexivity|].
  simpl. destruct (runs p s) as [|[b r] rest].
  - simpl in *. subst s. reflexivity.
  - destruct (Bool.eqb (p c) b); simpl in *; rewrite <- IH; reflexivity.
Qed.

Lemma runs_uniform (s : pystr) :
  Forall (is_run p) (runs p s).
Proof.
  induction s as [|c s IH]; [constructor|].
  simpl. destruct (runs p s) as [|[b r] rest].
  - repeat constructor; [discriminate|]. simpl. rewrite Bool.eqb_reflx. reflexivity.
  - inversion IH as [|? ? [Hne Hall] Hrest]; subst. simpl in *.
    destruct (Bool.eqb (p c) b) eqn:E.
    + constructor; [|exact Hrest]. split; [discriminate|]. simpl. rewrite E. exact Hall.
    + constructor; [|exact IH]. split; [discriminate|]. simpl.
      rewrite Bool.eqb_reflx. reflexivity.
Qed.

Lemma runs_maximal (s : pystr) : alternating (runs p s).
Proof.
  induction s as [|c s IH]; [exact I|].
  simpl. destruct (runs p s) as [|[b r] rest]; [exact I|].
  destruct (Bool.eqb (p c) b) eqn:E.
  - destruct rest; [exact I|]. exact IH.
  - split; [|exact IH]. simpl. intros Heq. rewrite Heq, Bool.eqb_reflx in E. discriminate.
Qed.

(* two classifications that agree on the characters of [s] cut and
   replace it alike *)
Lemma sub_runs_agree (q : N -> bool) (b : bool) (s : pystr) :
  all_chars (fun c => Bool.eqb (p c) (q c)) s = true ->
  sub_runs p b s = sub_runs q b s.
Proof.
  revert b. induction s as [|c s IH]; intros b Hs; [reflexivity|].
  simpl in *. apply andb_true_iff in Hs. destruct Hs as [Hc Hs].
  apply Bool.eqb_prop in Hc. rewrite <- Hc.
  destruct (p c); [destruct b|]; rewrite IH by exact Hs; reflexivity.
Qed.
End RegexFacts.

Lemma all_chars_impl (q q' : N -> bool) (s : pystr) :
  (forall c, q c = true -> q' c = true) -> all_chars q s = true -> all_chars q' s = true.
Proof.
  intros Hq. induction s as [|c s IH]; simpl; [reflexivity|].
  intros Hs. apply andb_true_iff in Hs. destruct Hs as [Hc Hs].
  rewrite (Hq c Hc), (IH Hs). reflexivity.
Qed.

(* without the underscore, the non-word characters are the characters
   that are not alphanumeric *)
Lemma re_sub_W_without_underscore (hi : N -> bool) (query : pystr) :
  all_chars (fun c => negb (c =? underscore)%N) query = true ->
  re_sub_W hi query = replace_runs (fun c => negb (isalnum hi c)) query.
Proof.
  intros Hq. unfold re_sub_W, replace_runs.
  rewrite <- (proj1 (sub_runs_join _ query)).
  apply sub_runs_agree. revert Hq. apply all_chars_impl.
  intros c Hc. unfold is_word. apply negb_true_iff in Hc. rewrite Hc, orb_false_r.
  apply Bool.eqb_reflx.
Qed.

Section QueryClaims.
Context `{World}.

Lemma search_pages_sends (query : pystr) (s : state) :
  sent (snd (search_pages query s)) =
  sent s ++ [SearchRequest (base_url (self s) +:+ "/wiki/rest/api/content/search")
                           (cql_before ++ re_sub_W unicode_isalnum query ++ cql_after)
                           (search_limit (self s))].
Proof.
  unfold search_pages, bind, gets, do_requests_get, raise, ret. simpl.
  destruct (requests_get _ _) as [|status txt [[results|]|]]; simpl; try reflexivity.
  all: destruct (negb (status =? 200)); reflexivity.
Qed.

(** C8, amended. For every query string that holds no underscore, the
    query sent to the search is the input in which every maximal run of
    characters that are not alphanumeric, whitespace among them, is
    replaced by one space, and nothing else is changed: the runs cut the
    input, each of them is not empty and uniform, neighbouring runs
    differ.  The query "a/b?  c" is sent as "a b c". *)
Theorem query_sanitized :
  forall (query : pystr) (s : state),
    all_chars (fun c => negb (c =? underscore)%N) query = true ->
    let nonalnum := fun c => negb (isalnum unicode_isalnum c) in
    sent (snd (search_pages query s)) =
      sent s ++ [SearchRequest (base_url (self s) +:+ "/wiki/rest/api/content/search")
                               (cql_before ++ replace_runs nonalnum query ++ cql_after)
                               (search_limit (self s))]
    /\ unsplit (runs nonalnum query) = query
    /\ Forall (is_run nonalnum) (runs nonalnum query)
    /\ alternating (runs nonalnum query)
    /\ replace_runs nonalnum (codes "a/b?  c") = codes "a b c".
Proof.
  intros query s Hq nonalnum. split.
  { rewrite search_pages_sends, (re_sub_W_without_underscore _ _ Hq). reflexivity. }
  split; [apply runs_concat|].
  split; [apply runs_uniform|].
  split; [apply runs_maximal|reflexivity].
Qed.
End QueryClaims.

(* three ideographs, a space, a slash and x are sent as the ideographs,
   one space and x *)
Lemma query_sanitized_witness :
  sent (snd (search_pages (H := world_served) [26085; 26412; 35486; 32; 47; 120]%N
               (fresh_state demo_client))) =
  [SearchRequest "https://wiki.example/wiki/rest/api/content/search"
                 (cql_before ++ [26085; 26412; 35486; 32; 120]%N ++ cql_after) 8].
Proof.
  exact (proj1 (query_sanitized (H := world_served) [26085; 26412; 35486; 32; 47; 120]%N
                  (fresh_state demo_client) eq_refl)).
Defined.

(* C8 as stated fails on whitespace, which belongs to the runs: two
   spaces are sent as one, and the claim's own example needs it. *)
Lemma query_sanitized_as_stated_fails :
  re_sub_W (fun _ => false) (codes "a  b") = codes "a b" /\
  spec_sanitize (fun _ => false) (fun _ => false) (codes "a  b") = codes "a  b" /\
  re_sub_W (fun _ => false) (codes "a/b?  c") = codes "a b c" /\
  spec_sanitize (fun _ => false) (fun _ => false) (codes "a/b?  c") <> codes "a b c".
Proof. repeat split; try reflexivity. discriminate. Qed.

(** ** The JSON of a page *)

Lemma complete_json_of c : complete (json_of c) = Some c.
Proof. destruct c; reflexivity. Qed.

Lemma complete_Some j c : complete j = Some c -> j = json_of c.
Proof.
  destruct j as [[[w|]|] [t|] [[[v|]|]|]]; try discriminate.
  intros [= <-]. reflexivity.
Qed.

Section JsonFacts.
Context `{World}.

(* In an object that lacks a member the first subscript that fails
   raises, and nothing has been done by then. *)
Lemma get_page_resume_lacking page_id j s :
  complete j = None ->
  _get_page_resume page_id (PageResponse true (Some j)) s =
  (Raise (KeyError
            match json_links j, json_title j, json_body j with
            | None, _, _ => "_links"
            | Some None, _, _ => "webui"
            | _, None, _ => "title"
            | _, _, None => "body"
            | _, _, Some None => PAGE_BODY_FORMAT
            | _, _, _ => "value"
            end), s).
Proof.
  destruct j as [[[w|]|] [t|] [[[v|]|]|]]; try discriminate; reflexivity.
Qed.
End JsonFacts.

Ltac page_cases response page_id s :=
  let j := fresh "j" in
  let c := fresh "c" in
  let Hj := fresh "Hj" in
  destruct response as [|[|] [j|]];
  [ | destruct (complete j) as [c|] eqn:Hj;
      [ apply complete_Some in Hj; subst j
      | try rewrite (get_page_resume_lacking page_id j s Hj) ] | | | ].

(** ** One fetch *)

Section FetchFacts.
Context `{World}.
Implicit Types (s : state) (r : ref).

Lemma cache_get_hit key s r :
  OD.getitem key (cache (self s)) = Some r ->
  cache_get key s = (Ok r, set_cache (OD.delitem key (cache (self s)) ++ [(key, r)]) s).
Proof.
  intros Hg. unfold cache_get, _cache_get, OD.move_to_end.
  rewrite Hg, getitem_moved. reflexivity.
Qed.

Lemma cache_get_miss key s :
  OD.getitem key (cache (self s)) = None ->
  cache_get key s = (Raise (KeyError key), set_cache (cache (self s)) s).
Proof.
  intros Hg. unfold cache_get, _cache_get, OD.move_to_end. rewrite Hg. reflexivity.
Qed.

Lemma cache_put_outcome key item s :
  exists n : nat,
    (n <= length (OD.setitem key item (cache (self s))))%nat /\
    snd (cache_put key item s) = set_cache (take n (OD.setitem key item (cache (self s)))) s /\
    match fst (cache_put key item s) with
    | Ok _ => _cache_size (sizeof_ref (heap s)) (take n (OD.setitem key item (cache (self s))))
              <= CACHE_LIMIT_BYTES (self s)
    | Raise e => n = 0%nat /\ CACHE_LIMIT_BYTES (self s) < 0 /\ e = KeyError "dictionary is empty"
    end.
Proof.
  destruct (cache_put_prefix (sizeof_ref (heap s)) (CACHE_LIMIT_BYTES (self s)) key item
              (cache (self s))) as (n & Hn & Hsnd & _ & Hfst).
  exists n. unfold cache_put.
  destruct (_cache_put _ _ key item (cache (self s))) as [res c] eqn:E.
  simpl in *. subst c. repeat split; [exact Hn|]. exact Hfst.
Qed.

Lemma sizeof_ref_alloc (h : list serialized_page) d r :
  (r < length h)%nat -> sizeof_ref (h ++ [d]) r = sizeof_ref h r.
Proof. intros Hr. unfold sizeof_ref. rewrite lookup_app_l by exact Hr. reflexivity. Qed.

Lemma sizeof_ref_new (h : list serialized_page) d :
  sizeof_ref (h ++ [d]) (length h) = getsizeof d.
Proof. unfold sizeof_ref. rewrite list_lookup_middle by reflexivity. reflexivity. Qed.

Lemma cache_size_alloc (h : list serialized_page) d (c : OD.t ref) :
  Forall (fun e : string * ref => (snd e < length h)%nat) c ->
  _cache_size (sizeof_ref (h ++ [d])) c = _cache_size (sizeof_ref h) c.
Proof.
  induction 1 as [|e c He _ IH]; [reflexivity|].
  rewrite !cache_size_cons, IH, sizeof_ref_alloc by exact He. reflexivity.
Qed.

(** After a successful response whose insertion overflows the ceiling,
    the entry just inserted is the one evicted and the final
    [_cache_get] raises. *)
Lemma get_page_resume_overflow page_id c s :
  cache_refs_valid s ->
  OD.contains page_id (cache (self s)) = false ->
  0 <= CACHE_LIMIT_BYTES (self s) ->
  CACHE_LIMIT_BYTES (self s) < cache_size s + Z.of_N (getsizeof (page_of (base_url (self s)) c)) ->
  fst (_get_page_resume page_id (PageResponse true (Some (json_of c))) s) = Raise (KeyError page_id).
Proof.
  intros Hvalid Hfresh Hlimit Hover.
  apply contains_false in Hfresh.
  unfold _get_page_resume, bind, gets, alloc. simpl.
  set (d := {| title := _; text := _; url := _ |}).
  set (s1 := set_heap (heap s ++ [d]) s).
  destruct (cache_put_outcome page_id (length (heap s)) s1) as (n & Hn & Hsnd & Hfst).
  destruct (cache_put page_id (length (heap s)) s1) as [res s2] eqn:Hput.
  simpl in Hsnd, Hfst. subst s2.
  change (cache (self s1)) with (cache (self s)) in *.
  change (heap s1) with (heap s ++ [d]) in *.
  change (CACHE_LIMIT_BYTES (self s1)) with (CACHE_LIMIT_BYTES (self s)) in *.
  rewrite setitem_fresh in * by exact Hfresh.
  destruct res as [[]|e].
  - assert (n <= length (cache (self s)))%nat as Hle.
    { destruct (decide (n <= length (cache (self s)))%nat) as [|Hgt]; [assumption|].
      rewrite take_ge in Hfst by (rewrite length_app; simpl; lia).
      rewrite cache_size_app, cache_size_alloc in Hfst by exact Hvalid.
      unfold _cache_size at 2 in Hfst. simpl in Hfst.
      rewrite sizeof_ref_new in Hfst. fold (cache_size s) in Hfst.
      unfold page_of in Hover. fold d in Hover. lia. }
    rewrite take_app_le by exact Hle.
    rewrite cache_get_miss; [reflexivity|].
    simpl. apply getitem_take_None. exact Hfresh.
  - lia.
Qed.

Lemma get_page_resume_Some page_id response s r s' :
  _get_page_resume page_id response s = (Ok (Some r), s') ->
  exists c,
    response = PageResponse true (Some (json_of c)) /\
    r = length (heap s) /\
    heap s' = heap s ++ [page_of (base_url (self s)) c] /\
    sent s' = sent s /\
    OD.getitem page_id (cache (self s')) = Some r.
Proof.
  page_cases response page_id s; try discriminate.
  unfold _get_page_resume, bind, gets, alloc, ret. simpl.
  set (d := {| title := _; text := _; url := _ |}).
  set (s1 := set_heap (heap s ++ [d]) s).
  destruct (cache_put_outcome page_id (length (heap s)) s1) as (n & Hn & Hsnd & _).
  destruct (cache_put page_id (length (heap s)) s1) as [[[]|e] s2]; [|discriminate].
  simpl in Hsnd. subst s2.
  set (c2 := take n _).
  destruct (OD.getitem page_id c2) as [r'|] eqn:Hg.
  - rewrite (cache_get_hit page_id (set_cache c2 s1) r') by exact Hg.
    intros Heq. inversion Heq; subst; clear Heq.
    exists c. unfold c2 in Hg. apply getitem_take in Hg. rewrite getitem_setitem in Hg.
    inversion Hg; subst. simpl. repeat split. apply getitem_moved.
  - rewrite (cache_get_miss page_id (set_cache c2 s1)) by exact Hg. discriminate.
Qed.

Lemma get_page_resume_None page_id response s s' :
  _get_page_resume page_id response s = (Ok None, s') ->
  s' = s /\ exists body, response = PageResponse false body.
Proof.
  page_cases response page_id s; try discriminate.
  - unfold _get_page_resume, bind, gets, alloc, ret. simpl.
    destruct (cache_put _ _ _) as [[[]|e] s2]; [|discriminate].
    destruct (cache_get _ _) as [[r|e] s3]; discriminate.
  - intros Heq. inversion Heq. eauto.
  - intros Heq. inversion Heq. eauto.
Qed.

Lemma get_page_start_hit page_id s r :
  OD.getitem page_id (cache (self s)) = Some r ->
  _get_page_start page_id s =
  (Ok (Finished (Some r)),
   set_cache (OD.delitem page_id (cache (self s)) ++ [(page_id, r)]) s).
Proof.
  intros Hg. unfold _get_page_start, bind, gets, ret. cbv beta iota.
  assert (OD.contains page_id (cache (self s)) = true) as ->
    by (apply contains_getitem; eauto).
  rewrite (cache_get_hit page_id s r) by exact Hg. reflexivity.
Qed.

Lemma get_page_start_miss page_id s :
  OD.contains page_id (cache (self s)) = false ->
  let req := PageRequest (base_url (self s) +:+ "/wiki/api/v2/pages/" +:+ page_id) in
  _get_page_start page_id s =
  (Ok (Suspended page_id (session_get (sent s) req)), set_sent (sent s ++ [req]) s).
Proof.
  intros Hc. unfold _get_page_start, bind, gets, ret, do_session_get. cbv beta iota.
  rewrite Hc. reflexivity.
Qed.

(** C7, amended. When an identifier that is not cached is fetched and
    the fetch returns a record, the fetch has issued one request, and a
    second fetch of the identifier in immediate succession is a cache
    hit: it returns the same record and issues no request. *)
Theorem refetch_is_cache_hit :
  forall page_id s r s1,
    OD.contains page_id (cache (self s)) = false ->
    _get_page page_id s = (Ok (Some r), s1) ->
    sent s1 = sent s ++ [PageRequest (base_url (self s) +:+ "/wiki/api/v2/pages/" +:+ page_id)]
    /\ OD.getitem page_id (cache (self s1)) = Some r
    /\ exists s2, _get_page page_id s1 = (Ok (Some r), s2)
                  /\ sent s2 = sent s1 /\ heap s2 = heap s1.
Proof.
  intros page_id s r s1 Hfresh Hfetch.
  unfold _get_page, bind in Hfetch.
  rewrite get_page_start_miss in Hfetch by exact Hfresh.
  apply get_page_resume_Some in Hfetch.
  destruct Hfetch as (c & _ & _ & _ & Hsent & Hcached).
  split; [exact Hsent|]. split; [exact Hcached|].
  eexists. unfold _get_page, bind.
  rewrite (get_page_start_hit page_id s1 r) by exact Hcached.
  unfold ret. repeat split.
Qed.

(* the client's put keeps the client's cache within the client's ceiling *)
Lemma cache_put_bounded key item s :
  0 <= CACHE_LIMIT_BYTES (self s) ->
  fst (cache_put key item s) = Ok tt /\
  cache_size (snd (cache_put key item s)) <= CACHE_LIMIT_BYTES (self (snd (cache_put key item s))).
Proof.
  intros Hlimit.
  destruct (cache_put_outcome key item s) as (n & _ & Hsnd & Hfst).
  rewrite Hsnd. destruct (fst (cache_put key item s)) as [[]|e].
  - split; [reflexivity | exact Hfst].
  - lia.
Qed.

Lemma cache_put_fits key item s :
  OD.getitem key (cache (self s)) = None ->
  _cache_size (sizeof_ref (heap s)) (cache (self s) ++ [(key, item)]) <= CACHE_LIMIT_BYTES (self s) ->
  cache_put key item s = (Ok tt, set_cache (cache (self s) ++ [(key, item)]) s).
Proof.
  intros Hfresh Hroom. unfold cache_put, _cache_put.
  rewrite setitem_fresh by exact Hfresh. rewrite evict_step.
  destruct (CACHE_LIMIT_BYTES (self s) <? _) eqn:E; [apply Z.ltb_lt in E; lia|].
  reflexivity.
Qed.

Lemma delitem_absent {V} key (d : OD.t V) : OD.getitem key d = None -> OD.delitem key d = d.
Proof.
  induction d as [|[k v] d IH]; [reflexivity|].
  unfold OD.delitem in *. simpl.
  destruct (String.eqb key k); [discriminate|]. intros Hg. simpl. f_equal. apply IH, Hg.
Qed.

(** With room under the ceiling, a successful response gives the record:
    a new dict made of the body, cached under the identifier. *)
Lemma get_page_resume_fits page_id c s :
  cache_refs_valid s ->
  OD.contains page_id (cache (self s)) = false ->
  cache_size s + Z.of_N (getsizeof (page_of (base_url (self s)) c)) <= CACHE_LIMIT_BYTES (self s) ->
  exists s',
    _get_page_resume page_id (PageResponse true (Some (json_of c))) s = (Ok (Some (length (heap s))), s') /\
    heap s' = heap s ++ [page_of (base_url (self s)) c] /\
    cache (self s') = cache (self s) ++ [(page_id, length (heap s))].
Proof.
  intros Hvalid Hfresh Hroom.
  apply contains_false in Hfresh.
  unfold _get_page_resume, bind, gets, alloc, ret. simpl.
  change {| title := content_title c; text := content_body_value c;
            url := base_url (self s) +:+ "/wiki" +:+ content_webui c |}
    with (page_of (base_url (self s)) c).
  set (d := page_of (base_url (self s)) c) in *.
  set (s1 := set_heap (heap s ++ [d]) s).
  rewrite (cache_put_fits page_id (length (heap s)) s1); [|exact Hfresh|].
  - rewrite (cache_get_hit page_id _ (length (heap s))).
    + eexists. split; [reflexivity|]. split; [reflexivity|]. simpl.
      rewrite delitem_app, (delitem_absent page_id _ Hfresh). unfold OD.delitem. simpl.
      rewrite String.eqb_refl. simpl. rewrite app_nil_r. reflexivity.
    + simpl. rewrite getitem_app_r by exact Hfresh. simpl. rewrite String.eqb_refl. reflexivity.
  - change (cache (self s1)) with (cache (self s)).
    change (heap s1) with (heap s ++ [d]).
    change (CACHE_LIMIT_BYTES (self s1)) with (CACHE_LIMIT_BYTES (self s)).
    rewrite cache_size_app, cache_size_alloc by exact Hvalid.
    unfold _cache_size at 2. simpl. rewrite sizeof_ref_new. unfold cache_size in Hroom. lia.
Qed.

(** C10 fails on the code. When the response is successful and the new
    dict takes the cache over its ceiling, the put evicts from the end it
    has just inserted at, and the fetch, instead of returning the record,
    raises KeyError at its final cache read. *)
Theorem fetch_raises_when_insertion_overflows :
  forall page_id c s,
    cache_refs_valid s ->
    OD.contains page_id (cache (self s)) = false ->
    0 <= CACHE_LIMIT_BYTES (self s) ->
    CACHE_LIMIT_BYTES (self s) < cache_size s + Z.of_N (getsizeof (page_of (base_url (self s)) c)) ->
    session_get (sent s) (PageRequest (base_url (self s) +:+ "/wiki/api/v2/pages/" +:+ page_id))
      = PageResponse true (Some (json_of c)) ->
    fst (_get_page page_id s) = Raise (KeyError page_id).
Proof.
  intros page_id c s Hvalid Hfresh Hlimit Hover Hresp.
  unfold _get_page, bind.
  rewrite get_page_start_miss by exact Hfresh. rewrite Hresp.
  pose proof (get_page_resume_overflow page_id c (set_sent (sent s ++ [PageRequest
    (base_url (self s) +:+ "/wiki/api/v2/pages/" +:+ page_id)]) s) Hvalid Hfresh Hlimit Hover) as Hr.
  destruct (_get_page_resume _ _ _) as [res s']. simpl in *. rewrite Hr. reflexivity.
Qed.
End FetchFacts.

(** ** A cache filled to its ceiling *)

Lemma crowded_refs_valid n : cache_refs_valid (crowded_state n).
Proof.
  unfold cache_refs_valid, crowded_state. simpl.
  rewrite repeat_length. apply Forall_forall. intros [k r] Hin.
  apply list_elem_of_In, in_map_iff in Hin. destruct Hin as (i & Heq & Hi).
  inversion Heq; subst. apply in_seq in Hi. simpl. lia.
Qed.

Lemma constant_cache_size (k : N) `{World} (h : list serialized_page) (c : OD.t ref) :
  (forall d, getsizeof d = k) ->
  Forall (fun e : string * ref => (snd e < length h)%nat) c ->
  _cache_size (sizeof_ref h) c = Z.of_N k * Z.of_nat (length c).
Proof.
  intros Hk. induction 1 as [|e c He _ IH]; [unfold _cache_size; simpl; lia|].
  rewrite cache_size_cons, IH. unfold sizeof_ref.
  destruct (h !! snd e) as [d|] eqn:Hd.
  - rewrite Hk. simpl length. lia.
  - apply lookup_ge_None in Hd. lia.
Qed.

Lemma crowded_cache_size nth_answer n :
  cache_size (H := scripted_world [] nth_answer) (crowded_state n) = 184 * Z.of_nat n.
Proof.
  unfold cache_size.
  rewrite (constant_cache_size 184 (H := scripted_world [] nth_answer)).
  - simpl. rewrite length_map, length_seq. reflexivity.
  - reflexivity.
  - apply crowded_refs_valid.
Qed.

Lemma crowded_lacks_q n : OD.contains "q" (cache (self (crowded_state n))) = false.
Proof.
  simpl. generalize 0%nat. induction n as [|n IH]; intros i; [reflexivity|].
  simpl. apply IH.
Qed.

Lemma fetch_raises_when_insertion_overflows_witness :
  fst (_get_page (H := scripted_world [] (fun _ => None)) "q"
         (crowded_state (N.to_nat 113975))) = Raise (KeyError "q").
Proof.
  apply (fetch_raises_when_insertion_overflows (H := scripted_world [] (fun _ => None))
           "q" (demo_content "q") (crowded_state (N.to_nat 113975))).
  - apply crowded_refs_valid.
  - apply crowded_lacks_q.
  - discriminate.
  - rewrite crowded_cache_size. rewrite N_nat_Z. reflexivity.
  - reflexivity.
Defined.


(** ** A batch of fetches *)

Section BatchFacts.
Context `{World}.
Implicit Types (s : state) (tasks : list task).

Lemma cache_get_frame key s :
  exists c, snd (cache_get key s) = set_cache c s.
Proof. unfold cache_get. destruct (_cache_get _ _) as [r c]. eauto. Qed.

Lemma cache_get_raises key s e : fst (cache_get key s) = Raise e -> e = KeyError key.
Proof.
  destruct (OD.getitem key (cache (self s))) as [r|] eqn:Hg.
  - rewrite (cache_get_hit key s r) by exact Hg. discriminate.
  - rewrite cache_get_miss by exact Hg. simpl. congruence.
Qed.

(* what a fetch leaves of the state, whatever its outcome *)
Lemma get_page_resume_frame page_id response s :
  let s' := snd (_get_page_resume page_id response s) in
  base_url (self s') = base_url (self s) /\ sent s' = sent s /\
  exists ext, heap s' = heap s ++ ext.
Proof.
  page_cases response page_id s; simpl;
    try (repeat split; exists []; rewrite app_nil_r; reflexivity).
  unfold _get_page_resume, bind, gets, alloc, ret, lift. simpl.
  set (d := {| title := _; text := _; url := _ |}).
  set (s1 := set_heap (heap s ++ [d]) s).
  destruct (cache_put_outcome page_id (length (heap s)) s1) as (n & _ & Hsnd & _).
  destruct (cache_put page_id (length (heap s)) s1) as [[[]|e] s2]; simpl in Hsnd; subst s2.
  - destruct (cache_get_frame page_id (set_cache (take n (OD.setitem page_id (length (heap s))
                (cache (self s1)))) s1)) as (c' & Hc').
    destruct (cache_get page_id _) as [[r|e] s3]; simpl in Hc'; subst s3; simpl;
      repeat split; eauto.
  - simpl. repeat split; eauto.
Qed.

Lemma get_page_resume_raises page_id response s e :
  fst (_get_page_resume page_id response s) = Raise e -> fetch_failure e.
Proof.
  page_cases response page_id s; simpl; try discriminate;
    try (intros Heq; inversion Heq; exact I).
  unfold _get_page_resume, bind, gets, alloc, ret, lift. simpl.
  set (s1 := set_heap _ s).
  destruct (cache_put_outcome page_id (length (heap s)) s1) as (n & _ & _ & Hfst).
  destruct (cache_put page_id (length (heap s)) s1) as [[[]|e'] s2]; simpl in Hfst.
  - pose proof (cache_get_raises page_id s2) as Hr.
    destruct (cache_get page_id s2) as [[r|e'] s3]; simpl in *; [discriminate|].
    intros Heq. inversion Heq; subst. rewrite (Hr e eq_refl). exact I.
  - simpl. intros Heq. inversion Heq; subst. destruct Hfst as (_ & _ & ->). exact I.
Qed.

(** *** The responses arrive *)

Lemma settled_heap_mono base (h ext : list serialized_page) t0 slot :
  settled base h t0 slot -> settled base (h ++ ext) t0 slot.
Proof.
  destruct t0 as [r|id [|[|] [j|]]]; simpl; auto.
  destruct (complete j) as [c|]; [|auto].
  intros (r & -> & Hr). exists r. split; [reflexivity|].
  apply lookup_app_l_Some. exact Hr.
Qed.

Lemma progress_refl base h tasks : progress base h tasks tasks.
Proof. split; auto. Qed.

Lemma wake_progress base i tasks0 tasks s tasks' s' :
  base_url (self s) = base ->
  progress base (heap s) tasks0 tasks ->
  wake i tasks s = (Ok tasks', s') ->
  base_url (self s') = base /\
  progress base (heap s') tasks0 tasks' /\
  ((i < length tasks)%nat -> exists slot, tasks' !! i = Some (Finished slot)) /\
  (forall j slot, tasks !! j = Some (Finished slot) -> tasks' !! j = Some (Finished slot)).
Proof.
  intros Hbase [Hlen Hprog] Hwake. unfold wake in Hwake.
  destruct (tasks !! i) as [[r|id response]|] eqn:Hi.
  - inversion Hwake; subst. repeat split; eauto.
  - unfold bind, ret in Hwake.
    pose proof (get_page_resume_frame id response s) as (Hb & _ & ext & Hheap).
    destruct (_get_page_resume id response s) as [[r|e] s1] eqn:Hres; [|discriminate].
    inversion Hwake; subst tasks' s'. clear Hwake. simpl in Hb, Hheap.
    assert (i < length tasks)%nat as Hlt by (apply lookup_lt_is_Some; eauto).
    split; [congruence|]. split; [|split].
    + split; [rewrite length_insert; exact Hlen|].
      intros j t0 Hj. destruct (decide (j = i)) as [->|Hne].
      * right. exists r. rewrite list_lookup_insert_eq by exact Hlt. split; [reflexivity|].
        destruct (Hprog i t0 Hj) as [Hsame|(slot & Hfin & _)]; [|congruence].
        assert (t0 = Suspended id response) as -> by congruence.
        destruct r as [r|].
        -- apply get_page_resume_Some in Hres.
           destruct Hres as (c & -> & -> & Hh & _). simpl.
           exists (length (heap s)). split; [reflexivity|].
           rewrite Hh, Hbase. apply list_lookup_middle. reflexivity.
        -- apply get_page_resume_None in Hres. destruct Hres as (_ & body & ->). reflexivity.
      * rewrite list_lookup_insert_ne by congruence.
        destruct (Hprog j t0 Hj) as [Hsame|(slot & Hfin & Hset)]; [left; exact Hsame|].
        right. exists slot. split; [exact Hfin|]. rewrite Hheap. apply settled_heap_mono, Hset.
    + intros _. exists r. apply list_lookup_insert_eq. exact Hlt.
    + intros j slot Hj. rewrite list_lookup_insert_ne by congruence. exact Hj.
  - inversion Hwake; subst. repeat split; eauto.
    intros Hlt. apply lookup_ge_None in Hi. lia.
Qed.

Lemma settle_progress base order : forall tasks0 tasks s tasks' s',
  base_url (self s) = base ->
  progress base (heap s) tasks0 tasks ->
  settle order tasks s = (Ok tasks', s') ->
  base_url (self s') = base /\
  progress base (heap s') tasks0 tasks' /\
  (forall i, i ∈ order -> (i < length tasks)%nat ->
             exists slot, tasks' !! i = Some (Finished slot)) /\
  (forall j slot, tasks !! j = Some (Finished slot) -> tasks' !! j = Some (Finished slot)).
Proof.
  induction order as [|i order IH]; intros tasks0 tasks s tasks' s' Hbase Hprog Hsettle.
  - inversion Hsettle; subst.
    split; [reflexivity|]. split; [exact Hprog|]. split; [|auto].
    intros i Hi. apply elem_of_nil in Hi. contradiction.
  - simpl in Hsettle. unfold bind in Hsettle.
    destruct (wake i tasks s) as [[tasks1|e] s1] eqn:Hwake; [|discriminate].
    destruct (wake_progress base i tasks0 tasks s tasks1 s1 Hbase Hprog Hwake)
      as (Hbase1 & Hprog1 & Hfin1 & Hkeep1).
    destruct (IH tasks0 tasks1 s1 tasks' s' Hbase1 Hprog1 Hsettle)
      as (Hbase' & Hprog' & Hfin' & Hkeep').
    assert (length tasks1 = length tasks) as Hlen1
      by (destruct Hprog as [-> _]; destruct Hprog1 as [-> _]; reflexivity).
    split; [exact Hbase'|]. split; [exact Hprog'|]. split.
    + intros j Hj Hlt. apply elem_of_cons in Hj. destruct Hj as [->|Hj].
      * destruct (Hfin1 Hlt) as (slot & Hslot). exists slot. apply Hkeep', Hslot.
      * apply Hfin'; [exact Hj|lia].
    + intros j slot Hj. apply Hkeep', Hkeep1, Hj.
Qed.

(** *** The tasks are started *)

Lemma start_all ids : forall s0 s earlier,
  base_url (self s) = base_url (self s0) ->
  heap s = heap s0 ->
  (forall k, OD.getitem k (cache (self s)) = OD.getitem k (cache (self s0))) ->
  sent s = sent s0 ++ map (fun id => PageRequest (base_url (self s0) +:+ "/wiki/api/v2/pages/" +:+ id))
                          (List.filter (fun id => negb (OD.contains id (cache (self s0)))) earlier) ->
  exists tasks s1,
    mapM _get_page_start ids s = (Ok tasks, s1) /\
    base_url (self s1) = base_url (self s0) /\
    heap s1 = heap s0 /\
    length tasks = length ids /\
    forall i id, ids !! i = Some id -> tasks !! i = Some (started s0 (earlier ++ take i ids) id).
Proof.
  induction ids as [|id ids IH]; intros s0 s earlier Hbase Hheap Hcache Hsent.
  - exists [], s. repeat split; auto. intros i id Hi. rewrite lookup_nil in Hi. discriminate.
  - simpl. unfold bind at 1.
    destruct (OD.getitem id (cache (self s))) as [r|] eqn:Hg.
    + rewrite (get_page_start_hit id s r) by exact Hg.
      destruct (IH s0 (set_cache (OD.delitem id (cache (self s)) ++ [(id, r)]) s) (earlier ++ [id]))
        as (tasks & s1 & Hrun & Hb1 & Hh1 & Hlen & Hspec).
      * exact Hbase.
      * exact Hheap.
      * intros k. simpl. rewrite (getitem_move id r) by exact Hg. apply Hcache.
      * simpl. rewrite Hsent, List.filter_app. simpl.
        assert (OD.contains id (cache (self s0)) = true) as ->.
        { apply contains_getitem. rewrite <- Hcache, Hg. eauto. }
        simpl. rewrite app_nil_r. reflexivity.
      * exists (Finished (Some r) :: tasks), s1. unfold bind, ret. rewrite Hrun.
        repeat split; auto; [simpl; congruence|].
        intros [|i] id' Hi; simpl in Hi; simpl.
        -- inversion Hi; subst. rewrite app_nil_r. unfold started.
           rewrite <- Hcache, Hg. reflexivity.
        -- rewrite (Hspec i id' Hi), <- app_assoc. reflexivity.
    + assert (OD.contains id (cache (self s)) = false) as Hc.
      { destruct (OD.contains id (cache (self s))) eqn:E; [|reflexivity].
        apply contains_getitem in E. rewrite Hg in E. destruct E; discriminate. }
      rewrite (get_page_start_miss id s Hc).
      set (req := PageRequest (base_url (self s) +:+ "/wiki/api/v2/pages/" +:+ id)).
      destruct (IH s0 (set_sent (sent s ++ [req]) s) (earlier ++ [id]))
        as (tasks & s1 & Hrun & Hb1 & Hh1 & Hlen & Hspec).
      * exact Hbase.
      * exact Hheap.
      * exact Hcache.
      * simpl. rewrite Hsent, List.filter_app. simpl.
        assert (OD.contains id (cache (self s0)) = false) as ->.
        { rewrite <- Hc. symmetry. apply contains_ext, Hcache. }
        simpl. rewrite map_app, <- app_assoc. simpl. unfold req. rewrite Hbase. reflexivity.
      * exists (Suspended id (session_get (sent s) req) :: tasks), s1.
        unfold bind, ret. rewrite Hrun.
        repeat split; auto; [simpl; congruence|].
        intros [|i] id' Hi; simpl in Hi; simpl.
        -- inversion Hi; subst. rewrite app_nil_r. unfold started.
           rewrite <- Hcache, Hg. unfold req. rewrite Hsent, Hbase. reflexivity.
        -- rewrite (Hspec i id' Hi), <- app_assoc. reflexivity.
Qed.

Lemma page_ids_eligible pages ids :
  page_ids pages = Ok ids ->
  map Some ids = map (OD.getitem "id") (List.filter (OD.contains PAGE_TYPE) pages).
Proof.
  revert ids. induction pages as [|p pages IH]; intros ids; simpl.
  - intros Heq. inversion Heq. reflexivity.
  - destruct (OD.contains PAGE_TYPE p); [|apply IH].
    destruct (OD.getitem "id" p) as [page_id|] eqn:Hid; [|discriminate].
    destruct (page_ids pages) as [ids'|e]; [|discriminate].
    intros Heq. inversion Heq; subst. simpl. rewrite Hid, (IH ids') by reflexivity. reflexivity.
Qed.

Lemma gather_Ok arrival pages s results s' :
  _gather arrival pages s = (Ok results, s') ->
  exists ids,
    page_ids pages = Ok ids /\
    length results = length ids /\
    forall i slot, results !! i = Some slot -> owed s s' ids i slot.
Proof.
  unfold _gather, bind, lift, ret.
  destruct (page_ids pages) as [ids|e] eqn:Hids; [|discriminate].
  destruct (start_all ids s s []) as (tasks & s1 & Hrun & Hb1 & Hh1 & Hlen & Hspec); auto.
  { simpl. rewrite app_nil_r. reflexivity. }
  rewrite Hrun.
  destruct (settle _ tasks s1) as [[tasks'|e] s2] eqn:Hsettle; [|discriminate].
  intros Heq. inversion Heq; subst results s2. clear Heq.
  destruct (settle_progress (base_url (self s)) _ tasks tasks s1 tasks' s' Hb1
              (progress_refl _ _ _) Hsettle) as (_ & [Hlen' Hprog] & Hfin & _).
  exists ids. split; [reflexivity|]. split; [rewrite length_map; congruence|].
  intros i slot Hi. rewrite list_lookup_fmap in Hi.
  destruct (tasks' !! i) as [t|] eqn:Ht; [|discriminate]. simpl in Hi.
  assert (i < length tasks)%nat as Hlt by (rewrite <- Hlen'; apply lookup_lt_is_Some; eauto).
  destruct (lookup_lt_is_Some_2 ids i ltac:(lia)) as [id Hid].
  unfold owed. rewrite Hid.
  specialize (Hspec i id Hid). simpl in Hspec.
  destruct (Hfin i) as (slot' & Hslot'); [|exact Hlt|].
  { apply elem_of_app. right. apply list_elem_of_In, in_seq. lia. }
  assert (slot' = slot) as -> by (rewrite Ht in Hslot'; inversion Hslot'; subst; inversion Hi; reflexivity).
  destruct (Hprog i _ Hspec) as [Hsame|(slot2 & Hfin2 & Hset)].
  - rewrite Hslot' in Hsame. injection Hsame as Hst. rewrite <- Hst. reflexivity.
  - rewrite Hslot' in Hfin2. inversion Hfin2; subst. exact Hset.
Qed.

(** C3. Whatever the order in which the responses arrive, the list a
    batch returns has one slot for each input reference that carries a
    type, in the order of the input, and the slot at index [i] holds the
    result owed to the [i]-th of them: the cached record on a hit, no
    record for a response that is not ok, the record made of the body of
    a response that is. *)
Theorem results_in_input_order :
  forall arrival pages s results s',
    fetch_pages arrival pages s = (Ok results, s') ->
    exists ids,
      map Some ids = map (OD.getitem "id") (List.filter (OD.contains PAGE_TYPE) pages) /\
      length results = length (List.filter (OD.contains PAGE_TYPE) pages) /\
      forall i, (i < length ids)%nat ->
        exists slot, results !! i = Some slot /\ owed s s' ids i slot.
Proof.
  intros arrival pages s results s' Hfetch.
  destruct (gather_Ok arrival pages s results s' Hfetch) as (ids & Hids & Hlen & Howed).
  pose proof (page_ids_eligible pages ids Hids) as Hel.
  exists ids. split; [exact Hel|]. split.
  - rewrite Hlen, <- (length_map Some ids), Hel, length_map. reflexivity.
  - intros i Hi. destruct (lookup_lt_is_Some_2 results i ltac:(lia)) as [slot Hslot].
    exists slot. split; [exact Hslot | apply Howed, Hslot].
Qed.

(** *** A fetch that fails *)

Lemma wake_raises i tasks s e s' :
  wake i tasks s = (Raise e, s') -> fetch_failure e.
Proof.
  unfold wake. destruct (tasks !! i) as [[r|id response]|]; try discriminate.
  unfold bind, ret. pose proof (get_page_resume_raises id response s) as Hr.
  destruct (_get_page_resume id response s) as [[r|e'] s1]; [discriminate|].
  intros Heq. inversion Heq; subst. apply Hr. reflexivity.
Qed.

Lemma wake_other i j tasks s tasks' s' :
  wake i tasks s = (Ok tasks', s') -> i <> j -> tasks' !! j = tasks !! j.
Proof.
  unfold wake. destruct (tasks !! i) as [[r|id response]|].
  - intros Heq. inversion Heq. reflexivity.
  - unfold bind, ret. destruct (_get_page_resume id response s) as [[r|e'] s1]; [|discriminate].
    intros Heq Hne. inversion Heq; subst. apply list_lookup_insert_ne. exact Hne.
  - intros Heq. inversion Heq. reflexivity.
Qed.

Lemma settle_raises order : forall tasks s e s',
  settle order tasks s = (Raise e, s') -> fetch_failure e.
Proof.
  induction order as [|i order IH]; intros tasks s e s'; simpl; [discriminate|].
  unfold bind. destruct (wake i tasks s) as [[tasks1|e1] s1] eqn:Hwake.
  - apply IH.
  - intros Heq. inversion Heq; subst. eapply wake_raises, Hwake.
Qed.

Lemma settle_network_failure order : forall tasks s i id,
  tasks !! i = Some (Suspended id PageNetworkFailure) ->
  i ∈ order ->
  exists e s', settle order tasks s = (Raise e, s').
Proof.
  induction order as [|j order IH]; intros tasks s i id Hi Hin.
  - apply elem_of_nil in Hin. contradiction.
  - simpl. unfold bind. destruct (wake j tasks s) as [[tasks1|e1] s1] eqn:Hwake; [|eauto].
    destruct (decide (j = i)) as [->|Hne].
    + unfold wake in Hwake. rewrite Hi in Hwake. discriminate.
    + apply elem_of_cons in Hin. destruct Hin as [->|Hin]; [congruence|].
      apply (IH tasks1 s1 i id); [|exact Hin].
      rewrite (wake_other j i tasks s tasks1 s1 Hwake Hne). exact Hi.
Qed.

Lemma gather_raises arrival pages s e s' :
  _gather arrival pages s = (Raise e, s') -> fetch_failure e.
Proof.
  unfold _gather, bind, lift, ret.
  destruct (page_ids pages) as [ids|e0] eqn:Hids.
  - destruct (start_all ids s s []) as (tasks & s1 & Hrun & _); auto.
    { simpl. rewrite app_nil_r. reflexivity. }
    rewrite Hrun. destruct (settle _ tasks s1) as [[tasks'|e1] s2] eqn:Hsettle; [discriminate|].
    intros Heq. inversion Heq; subst. eapply settle_raises, Hsettle.
  - intros Heq. inversion Heq; subst. clear Heq. revert e Hids.
    induction pages as [|p pages IH]; intros e; simpl; [discriminate|].
    destruct (OD.contains PAGE_TYPE p); [|apply IH].
    destruct (OD.getitem "id" p); [|intros Heq; inversion Heq; exact I].
    destruct (page_ids pages); [discriminate|].
    intros Heq. inversion Heq; subst. apply IH. reflexivity.
Qed.

(** C1, amended. A network-level failure of one fetch is not absorbed:
    if the task of any reference of the batch waits on a response that
    is a timeout or a connection error, then, whatever the order of
    arrival, the batch returns no list of results but raises the
    failure of a fetch, and the search raises it in turn. *)
Theorem network_failure_aborts_batch :
  forall arrival query s pages s0 ids i page_id,
    search_pages query s = (Ok pages, s0) ->
    page_ids pages = Ok ids ->
    ids !! i = Some page_id ->
    started s0 (take i ids) page_id = Suspended page_id PageNetworkFailure ->
    exists e s1,
      fetch_pages arrival pages s0 = (Raise e, s1) /\
      search arrival query s = (Raise e, s1) /\
      fetch_failure e.
Proof.
  intros arrival query s pages s0 ids i page_id Hsearch Hids Hi Hfail.
  assert (exists e s1, fetch_pages arrival pages s0 = (Raise e, s1)) as (e & s1 & Hfetch).
  { unfold fetch_pages, _gather, bind, lift, ret. rewrite Hids.
    destruct (start_all ids s0 s0 []) as (tasks & s1 & Hrun & _ & _ & Hlen & Hspec); auto.
    { simpl. rewrite app_nil_r. reflexivity. }
    rewrite Hrun. specialize (Hspec i page_id Hi). simpl in Hspec. rewrite Hfail in Hspec.
    destruct (settle_network_failure (arrival ++ seq 0 (length tasks)) tasks s1 i page_id Hspec)
      as (e & s2 & Hsettle).
    { apply elem_of_app. right. apply list_elem_of_In, in_seq.
      apply lookup_lt_Some in Hspec. lia. }
    rewrite Hsettle. eauto. }
  exists e, s1. split; [exact Hfetch|]. split.
  - unfold search, bind. rewrite Hsearch, Hfetch. reflexivity.
  - eapply gather_raises. exact Hfetch.
Qed.
End BatchFacts.

(** ** The search *)

Section SearchFacts.
Context `{World}.
Implicit Types (s : state).

Lemma strip_all refs : forall s,
  mapM strip_page refs s =
  (Ok (map (fun _ => tt) refs),
   set_heap (foldl (fun h r => alter strip_text r h) (heap s) refs) s).
Proof.
  induction refs as [|r refs IH]; intros s; simpl.
  - unfold ret. destruct s; reflexivity.
  - unfold bind, strip_page, modify at 1. rewrite IH. reflexivity.
Qed.

Lemma lookup_strip_all refs : forall (h : list serialized_page) r d,
  h !! r = Some d ->
  foldl (fun h r => alter strip_text r h) h refs !! r =
  Some (Nat.iter (count_occ Nat.eq_dec refs r) strip_text d).
Proof.
  induction refs as [|r' refs IH]; intros h r d Hr; simpl; [exact Hr|].
  destruct (Nat.eq_dec r' r) as [->|Hne].
  - rewrite (IH _ r (strip_text d)).
    + f_equal. symmetry. apply Nat.iter_succ_r.
    + rewrite list_lookup_alter_eq, Hr. reflexivity.
  - apply IH. rewrite list_lookup_alter_ne by exact Hne. exact Hr.
Qed.

Lemma iter_strip_text n d :
  Nat.iter n strip_text d =
  {| title := title d; text := Nat.iter n stripped_text (text d); url := url d |}.
Proof.
  induction n as [|n IH]; simpl; [destruct d; reflexivity|].
  rewrite IH. reflexivity.
Qed.

Lemma search_unfold arrival query s :
  search arrival query s =
  match search_pages query s with
  | (Raise e, s0) => (Raise e, s0)
  | (Ok pages, s0) =>
      match fetch_pages arrival pages s0 with
      | (Raise e, s1) => (Raise e, s1)
      | (Ok fetched, s1) =>
          (Ok (omap id fetched),
           set_heap (foldl (fun h r => alter strip_text r h) (heap s1) (omap id fetched)) s1)
      end
  end.
Proof.
  unfold search, bind.
  destruct (search_pages query s) as [[pages|e] s0]; [|reflexivity].
  destruct (fetch_pages arrival pages s0) as [[fetched|e] s1]; [|reflexivity].
  rewrite strip_all. reflexivity.
Qed.

Lemma search_pages_outcome query s :
  search_pages query s =
  (match requests_get (sent s) (search_request query s) with
   | SearchNetworkFailure => Raise RequestException
   | SearchResponse status_code response_text json =>
       if status_code =? 200 then
         match json with
         | None => Raise JSONDecodeError
         | Some None => Ok []
         | Some (Some results) => Ok results
         end
       else Raise (UpstreamProviderError ("Error during Confluence search: " +:+ response_text))
   end,
   set_sent (sent s ++ [search_request query s]) s).
Proof.
  unfold search_pages, bind, gets, do_requests_get, raise, ret, search_request. cbv beta iota.
  destruct (requests_get _ _) as [|status txt [[results|]|]]; try reflexivity;
    destruct (status =? 200); reflexivity.
Qed.

(** C9, amended. The search raises the upstream error exactly when the
    response of the search request has a status other than 200; the
    error then carries the text of the response, and the search request
    is the only request sent: no page is fetched.  (Other failures, of
    the search request or of a page fetch, surface as other exceptions.) *)
Theorem upstream_failure_surfaces :
  forall arrival query s,
    match requests_get (sent s) (search_request query s) with
    | SearchResponse status_code response_text _ =>
        if status_code =? 200 then
          forall message, fst (search arrival query s) <> Raise (UpstreamProviderError message)
        else
          search arrival query s =
          (Raise (UpstreamProviderError ("Error during Confluence search: " +:+ response_text)),
           set_sent (sent s ++ [search_request query s]) s)
    | SearchNetworkFailure =>
        forall message, fst (search arrival query s) <> Raise (UpstreamProviderError message)
    end.
Proof.
  intros arrival query s. rewrite search_unfold, search_pages_outcome.
  destruct (requests_get _ _) as [|status txt json].
  - intros message. discriminate.
  - destruct (status =? 200); [|reflexivity].
    intros message.
    assert (forall pages,
      fst (match fetch_pages arrival pages (set_sent (sent s ++ [search_request query s]) s) with
           | (Raise e, s1) => (Raise e, s1)
           | (Ok fetched, s1) =>
               (Ok (omap id fetched),
                set_heap (foldl (fun h r => alter strip_text r h) (heap s1) (omap id fetched)) s1)
           end) <> Raise (UpstreamProviderError message)) as Hfetch.
    { intros pages.
      destruct (fetch_pages arrival pages _) as [[fetched|e] s1] eqn:Hf; [discriminate|].
      apply gather_raises in Hf. simpl. intros Heq. inversion Heq; subst. exact Hf. }
    destruct json as [[results|]|]; [apply Hfetch | apply Hfetch | discriminate].
Qed.
End SearchFacts.

(** ** The route *)

Section RouteFacts.
Context `{World}.

Lemma route_discards_client settings arrival query (c : ConfluenceClient) (s : state) :
  routes.search settings arrival query (set_self c s) = routes.search settings arrival query s.
Proof. reflexivity. Qed.
End RouteFacts.


(** * The claims on concrete runs *)

Lemma results_in_input_order_witness :
  exists ids,
    map Some ids = map (OD.getitem "id") (List.filter (OD.contains PAGE_TYPE) [hit "1"; hit "2"]) /\
    length [Some 1%nat; Some 0%nat] = length (List.filter (OD.contains PAGE_TYPE) [hit "1"; hit "2"]) /\
    forall i, (i < length ids)%nat ->
      exists slot, [Some 1%nat; Some 0%nat] !! i = Some slot /\
        owed (H := world_served) (fresh_state demo_client)
             (snd (fetch_pages (H := world_served) [1%nat] [hit "1"; hit "2"] (fresh_state demo_client)))
             ids i slot.
Proof.
  apply (results_in_input_order (H := world_served) [1%nat] [hit "1"; hit "2"]
           (fresh_state demo_client) [Some 1%nat; Some 0%nat]).
  vm_compute. reflexivity.
Defined.

(* C1 as stated fails: page 2 has settled when the request for page 1
   times out, and yet the batch, the search and the route all raise. *)
Lemma network_failure_is_not_absorbed :
  fst (fetch_pages (H := world_timeout) [1%nat] [hit "1"; hit "2"]
         (snd (search_pages (H := world_timeout) "q" (fresh_state demo_client))))
    = Raise ClientError /\
  fst (search (H := world_timeout) [1%nat] "q" (fresh_state demo_client)) = Raise ClientError /\
  fst (routes.search (H := world_timeout) demo_settings [1%nat] "q" (fresh_state demo_client))
    = Raise ClientError.
Proof. repeat split; vm_compute; reflexivity. Qed.

Lemma network_failure_aborts_batch_witness :
  exists e s1,
    fetch_pages (H := world_timeout) [1%nat] [hit "1"; hit "2"]
      (snd (search_pages (H := world_timeout) "q" (fresh_state demo_client))) = (Raise e, s1) /\
    search (H := world_timeout) [1%nat] "q" (fresh_state demo_client) = (Raise e, s1) /\
    fetch_failure e.
Proof.
  apply (network_failure_aborts_batch (H := world_timeout) [1%nat] "q" (fresh_state demo_client)
           [hit "1"; hit "2"] _ ["1"; "2"]%string 0%nat "1");
    vm_compute; reflexivity.
Defined.

(** C2 fails on the code. The route makes a new client, with an empty
    cache, for every call: the client that the process state holds does
    not matter to a call, and the second of two successive searches
    that find the same pages requests from upstream the pages that the
    first one has fetched and cached. *)
Theorem route_cache_is_not_shared :
  (forall (W : World) settings arrival query c s,
      routes.search settings arrival query (set_self c s) = routes.search settings arrival query s)
  /\
  let s1 := snd (routes.search (H := world_served) demo_settings [] "q" (fresh_state demo_client)) in
  let s2 := snd (routes.search (H := world_served) demo_settings [] "q" s1) in
  OD.contains "1" (cache (self s1)) = true /\
  OD.contains "2" (cache (self s1)) = true /\
  length (sent s1) = 3%nat /\
  drop 4 (sent s2) = [PageRequest "https://wiki.example/wiki/api/v2/pages/1";
                      PageRequest "https://wiki.example/wiki/api/v2/pages/2"].
Proof.
  split; [intros; apply route_discards_client|].
  vm_compute. repeat split.
Qed.

(* C5 as stated fails: after the search the dict that the cache holds
   for page 1 has lost the markup it was stored with. *)
Lemma cached_text_is_overwritten :
  let s0 := snd (search_pages (H := world_served) "q" (fresh_state demo_client)) in
  let s1 := snd (fetch_pages (H := world_served) [] [hit "1"; hit "2"] s0) in
  let s' := snd (search (H := world_served) [] "q" (fresh_state demo_client)) in
  OD.getitem "1" (cache (self s1)) = Some 0%nat /\
  text <$> heap s1 !! 0%nat = Some "<p>body 1</p>"%string /\
  OD.getitem "1" (cache (self s')) = Some 0%nat /\
  text <$> heap s' !! 0%nat = Some "body 1"%string.
Proof. vm_compute. repeat split. Qed.

(* C7 as stated fails: a fetch answered 404 caches nothing, and the
   second fetch goes upstream again. *)
Lemma refetch_after_soft_miss :
  let s0 := fresh_state demo_client in
  let s1 := snd (_get_page (H := world_not_found) "1" s0) in
  let s2 := snd (_get_page (H := world_not_found) "1" s1) in
  fst (_get_page (H := world_not_found) "1" s0) = Ok None /\
  OD.contains "1" (cache (self s1)) = false /\
  sent s2 = [PageRequest "https://wiki.example/wiki/api/v2/pages/1";
             PageRequest "https://wiki.example/wiki/api/v2/pages/1"].
Proof. vm_compute. repeat split. Qed.

Lemma refetch_is_cache_hit_witness :
  let s0 := fresh_state demo_client in
  let s1 := snd (_get_page (H := world_served) "1" s0) in
  sent s1 = sent s0 ++ [PageRequest (base_url (self s0) +:+ "/wiki/api/v2/pages/" +:+ "1")] /\
  OD.getitem "1" (cache (self s1)) = Some 0%nat /\
  exists s2, _get_page (H := world_served) "1" s1 = (Ok (Some 0%nat), s2)
             /\ sent s2 = sent s1 /\ heap s2 = heap s1.
Proof.
  apply (refetch_is_cache_hit (H := world_served) "1" (fresh_state demo_client) 0%nat);
    vm_compute; reflexivity.
Defined.

(* C9 as stated fails in its last part: the search request is answered
   200, and the search and the route still fail, on the body of a page. *)
Lemma other_failures_surface :
  let s0 := fresh_state demo_client in
  requests_get (World := world_bad_body) (sent s0) (search_request (H := world_bad_body) "q" s0)
    = SearchResponse 200 "{...}" (Some (Some [hit "1"])) /\
  fst (search (H := world_bad_body) [] "q" s0) = Raise JSONDecodeError /\
  fst (routes.search (H := world_bad_body) demo_settings [] "q" s0) = Raise JSONDecodeError.
Proof. vm_compute. repeat split. Qed.

(** * Further properties of the code *)

(** ** The ordered dictionary and the cache *)

Section DictMore.
Context {V : Type}.
Implicit Types (d : OD.t V) (k : string) (v : V).

Lemma getitem_None_keys k d : OD.getitem k d = None <-> k ∉ OD.keys d.
Proof.
  induction d as [|[k' v'] d IH]; simpl.
  - split; [intros _; apply not_elem_of_nil | reflexivity].
  - destruct (String.eqb k k') eqn:E.
    + apply String.eqb_eq in E. subst. split; [discriminate|].
      intros Hn. exfalso. apply Hn. left.
    + apply String.eqb_neq in E. rewrite IH. rewrite not_elem_of_cons. tauto.
Qed.

Lemma keys_setitem k v d :
  OD.keys (OD.setitem k v d) = if OD.contains k d then OD.keys d else OD.keys d ++ [k].
Proof.
  induction d as [|[k' v'] d IH]; [reflexivity|].
  simpl. destruct (String.eqb k k') eqn:E; simpl.
  - apply String.eqb_eq in E. subst. reflexivity.
  - unfold OD.keys in *. simpl. rewrite IH. unfold OD.contains.
    destruct (existsb _ d); reflexivity.
Qed.

Lemma keys_delitem k d :
  OD.keys (OD.delitem k d) = List.filter (fun k' => negb (String.eqb k k')) (OD.keys d).
Proof.
  induction d as [|[k' v'] d IH]; [reflexivity|].
  unfold OD.delitem, OD.keys in *. simpl.
  destruct (String.eqb k k'); simpl; [exact IH | f_equal; exact IH].
Qed.

Lemma NoDup_keys_setitem k v d : NoDup (OD.keys d) -> NoDup (OD.keys (OD.setitem k v d)).
Proof.
  intros Hd. rewrite keys_setitem. destruct (OD.contains k d) eqn:E; [exact Hd|].
  apply NoDup_app. split; [exact Hd|]. split; [|apply NoDup_singleton].
  intros x Hx Hk. apply list_elem_of_singleton in Hk. subst x.
  apply contains_false, getitem_None_keys in E. contradiction.
Qed.

Lemma NoDup_keys_take n d : NoDup (OD.keys d) -> NoDup (OD.keys (take n d)).
Proof.
  unfold OD.keys. change (map fst (take n d)) with (fst <$> take n d).
  rewrite fmap_take. intros Hd. eapply sublist_NoDup; eauto using sublist_take.
Qed.

Lemma NoDup_keys_moved k v d : NoDup (OD.keys d) -> NoDup (OD.keys (OD.delitem k d ++ [(k, v)])).
Proof.
  intros Hd. unfold OD.keys at 1. rewrite map_app. fold (OD.keys (OD.delitem k d)). simpl.
  apply NoDup_app. split; [|split; [|apply NoDup_singleton]].
  - rewrite keys_delitem. apply NoDup_ListNoDup, List.NoDup_filter, NoDup_ListNoDup. exact Hd.
  - intros x Hx Hk. apply list_elem_of_singleton in Hk. subst x.
    apply getitem_None_keys in Hx; [exact Hx|]. apply getitem_delitem.
Qed.
End DictMore.

Section CacheMore.
Context {V : Type} (sizeof : V -> N).
Implicit Types (d cache : OD.t V) (C : Z).

Lemma popitem_snoc d (e : string * V) : OD.popitem (d ++ [e]) = Ok (e, d).
Proof. unfold OD.popitem. rewrite rev_app_distr. simpl. rewrite rev_involutive. reflexivity. Qed.

Lemma evict_within C d : _cache_size sizeof d <= C -> evict sizeof C d = (Ok tt, d).
Proof.
  intros Hd. rewrite evict_step.
  destruct (C <? _cache_size sizeof d) eqn:E; [apply Z.ltb_lt in E; lia | reflexivity].
Qed.

Lemma getitem_setitem_ne k k' v d :
  k' <> k -> OD.getitem k' (OD.setitem k v d) = OD.getitem k' d.
Proof.
  intros Hne. induction d as [|[k0 v0] d IH]; simpl.
  - apply String.eqb_neq in Hne. rewrite Hne. reflexivity.
  - destruct (String.eqb k k0) eqn:E; simpl.
    + apply String.eqb_eq in E. subst k0.
      apply String.eqb_neq in Hne. rewrite Hne. reflexivity.
    + destruct (String.eqb k' k0); [reflexivity | exact IH].
Qed.

Lemma cache_size_delitem k v d :
  NoDup (OD.keys d) -> OD.getitem k d = Some v ->
  _cache_size sizeof d = _cache_size sizeof (OD.delitem k d) + Z.of_N (sizeof v).
Proof.
  induction d as [|[k0 v0] d IH]; simpl; [discriminate|].
  intros Hnd Hg. apply NoDup_cons in Hnd. destruct Hnd as [Hk0 Hnd].
  unfold OD.delitem in *. simpl.
  destruct (String.eqb k k0) eqn:E; simpl.
  - apply String.eqb_eq in E. subst k0. inversion Hg; subst.
    apply getitem_None_keys in Hk0.
    fold (OD.delitem k d). rewrite (delitem_absent k d Hk0), cache_size_cons. simpl. lia.
  - rewrite !cache_size_cons, (IH Hnd Hg). simpl. lia.
Qed.

Lemma length_delitem k v d :
  NoDup (OD.keys d) -> OD.getitem k d = Some v ->
  length d = S (length (OD.delitem k d)).
Proof.
  induction d as [|[k0 v0] d IH]; simpl; [discriminate|].
  intros Hnd Hg. apply NoDup_cons in Hnd. destruct Hnd as [Hk0 Hnd].
  unfold OD.delitem in *. simpl.
  destruct (String.eqb k k0) eqn:E; simpl.
  - apply String.eqb_eq in E. subst k0. apply getitem_None_keys in Hk0.
    fold (OD.delitem k d). rewrite (delitem_absent k d Hk0). reflexivity.
  - rewrite (IH Hnd Hg). reflexivity.
Qed.

(** X1. The keys of the cache stay pairwise distinct: a put and a get on
    a cache with at most one entry per key leave at most one entry per
    key, whatever the eviction does and whether or not they raise. *)
Theorem cache_keys_stay_unique :
  forall C key item cache,
    NoDup (OD.keys cache) ->
    NoDup (OD.keys (snd (_cache_put sizeof C key item cache))) /\
    NoDup (OD.keys (snd (_cache_get key cache))).
Proof.
  intros C key item cache Hnd. split.
  - destruct (cache_put_prefix sizeof C key item cache) as (n & _ & -> & _).
    apply NoDup_keys_take, NoDup_keys_setitem, Hnd.
  - unfold _cache_get, OD.move_to_end.
    destruct (OD.getitem key cache) as [v|]; [|exact Hnd].
    rewrite getitem_moved. simpl. apply NoDup_keys_moved, Hnd.
Qed.

(** X2. A get changes the recency order only. On a present key it
    returns the value, leaves every lookup and the total size of the
    cache as they were, and puts the entry last; on an absent key it
    raises KeyError for that key and leaves the cache as it was. *)
Theorem cache_get_only_reorders :
  forall key cache,
    NoDup (OD.keys cache) ->
    match OD.getitem key cache with
    | Some v =>
        fst (_cache_get key cache) = Ok v /\
        (forall k, OD.getitem k (snd (_cache_get key cache)) = OD.getitem k cache) /\
        _cache_size sizeof (snd (_cache_get key cache)) = _cache_size sizeof cache /\
        length (snd (_cache_get key cache)) = length cache /\
        last (snd (_cache_get key cache)) = Some (key, v)
    | None => _cache_get key cache = (Raise (KeyError key), cache)
    end.
Proof.
  intros key cache Hnd. unfold _cache_get, OD.move_to_end.
  destruct (OD.getitem key cache) as [v|] eqn:Hg; [|reflexivity].
  rewrite getitem_moved. simpl. split; [reflexivity|]. split; [apply getitem_move, Hg|].
  split; [|split].
  - rewrite cache_size_app, (cache_size_delitem key v cache Hnd Hg).
    unfold _cache_size at 2. simpl. lia.
  - rewrite length_app. simpl. rewrite (length_delitem key v cache Hnd Hg). lia.
  - apply last_snoc.
Qed.

(** X3. A put that fits under the ceiling stores the item and evicts
    nothing: the entry takes the place of the key if the key is cached
    (it is not moved to the most recent end) and the last place if it
    is not; a get of the key then returns the item; the other keys keep
    their values. *)
Theorem cache_put_then_get :
  forall C key item cache,
    _cache_size sizeof (OD.setitem key item cache) <= C ->
    _cache_put sizeof C key item cache = (Ok tt, OD.setitem key item cache) /\
    OD.keys (OD.setitem key item cache)
      = (if OD.contains key cache then OD.keys cache else OD.keys cache ++ [key]) /\
    fst (_cache_get key (OD.setitem key item cache)) = Ok item /\
    forall k, k <> key -> OD.getitem k (OD.setitem key item cache) = OD.getitem k cache.
Proof.
  intros C key item cache Hfit. split; [apply evict_within, Hfit|].
  split; [apply keys_setitem|]. split.
  - unfold _cache_get, OD.move_to_end. rewrite getitem_setitem, getitem_moved. reflexivity.
  - intros k Hk. apply getitem_setitem_ne, Hk.
Qed.

(** X4. Inserting a new key into a cache that is within its ceiling but
    has no room for the item changes nothing: the put returns normally
    and the cache is the one before the put, without the new key. *)
Theorem cache_put_without_room :
  forall C key item cache,
    OD.getitem key cache = None ->
    _cache_size sizeof cache <= C ->
    C < _cache_size sizeof cache + Z.of_N (sizeof item) ->
    _cache_put sizeof C key item cache = (Ok tt, cache).
Proof.
  intros C key item cache Hfresh Hin Hover.
  unfold _cache_put. rewrite setitem_fresh by exact Hfresh.
  rewrite evict_step.
  assert ((C <? _cache_size sizeof (cache ++ [(key, item)])) = true) as ->.
  { apply Z.ltb_lt. rewrite cache_size_app. unfold _cache_size at 2. simpl. lia. }
  rewrite popitem_snoc. apply evict_within, Hin.
Qed.
End CacheMore.

(** ** The sanitised query *)

Section RegexMore.
Variable hi : N -> bool.

Lemma sub_runs_chars p b (s : pystr) :
  all_chars (fun c => negb (p c) || (c =? space)%N) (sub_runs p b s) = true.
Proof.
  revert b. induction s as [|c s IH]; intros b; simpl; [reflexivity|].
  destruct (p c) eqn:Hc.
  - destruct b; simpl; [apply IH | rewrite orb_true_r; apply IH].
  - simpl. rewrite Hc. simpl. apply IH.
Qed.

Lemma sub_runs_again p (s : pystr) :
  p space = true ->
  sub_runs p false (sub_runs p false s) = sub_runs p false s /\
  sub_runs p false (sub_runs p true s) = sub_runs p true s /\
  sub_runs p true (sub_runs p true s) = sub_runs p true s.
Proof.
  intros Hsp. induction s as [|c s (IH1 & IH2 & IH3)]; simpl; [auto|].
  destruct (p c) eqn:Hc; simpl.
  - rewrite Hsp, IH3. auto.
  - rewrite Hc, IH1. auto.
Qed.

(** X5. For every query, a sequence of Unicode code points, the query
    that goes into the CQL text is made of word characters and spaces
    only; in particular it holds no double quote, so it cannot end the
    quoted CQL string it is placed in. *)
Theorem sanitized_query_charset :
  forall query : pystr,
    all_chars (fun c => is_word hi c || (c =? space)%N) (re_sub_W hi query) = true /\
    all_chars (fun c => negb (c =? double_quote)%N) (re_sub_W hi query) = true.
Proof.
  intros query.
  assert (all_chars (fun c => is_word hi c || (c =? space)%N) (re_sub_W hi query) = true) as Hw.
  { unfold re_sub_W. eapply all_chars_impl; [|apply sub_runs_chars].
    intros c Hc. simpl in Hc. rewrite negb_involutive in Hc. exact Hc. }
  split; [exact Hw|].
  eapply all_chars_impl; [|exact Hw]. intros c Hc. simpl in Hc.
  destruct (c =? double_quote)%N eqn:E; [|reflexivity].
  apply N.eqb_eq in E. subst c. discriminate.
Qed.

(** X6. Sanitising is idempotent on every query, a sequence of Unicode
    code points: a query that has been sanitised is left as it is by a
    second sanitisation. *)
Theorem sanitize_idempotent :
  forall query : pystr, re_sub_W hi (re_sub_W hi query) = re_sub_W hi query.
Proof.
  intros query. unfold re_sub_W. apply sub_runs_again. reflexivity.
Qed.
End RegexMore.

(** ** What a run keeps of the state *)

Section Keeps.
Variable R : state -> state -> Prop.
Hypothesis R_refl : forall s, R s s.
Hypothesis R_trans : forall s1 s2 s3, R s1 s2 -> R s2 s3 -> R s1 s3.

Lemma keeps_ret {A} (a : A) : keeps R (ret a).
Proof. intros s. apply R_refl. Qed.

Lemma keeps_raise {A} e : keeps R (@raise A e).
Proof. intros s. apply R_refl. Qed.

Lemma keeps_gets {A} (f : state -> A) : keeps R (gets f).
Proof. intros s. apply R_refl. Qed.

Lemma keeps_lift {A} (r : res A) : keeps R (lift r).
Proof. intros s. apply R_refl. Qed.

Lemma keeps_bind {A B} (m : M A) (k : A -> M B) :
  keeps R m -> (forall a, keeps R (k a)) -> keeps R (bind m k).
Proof.
  intros Hm Hk s. unfold bind. specialize (Hm s).
  destruct (m s) as [[a|e] s']; simpl in *; [|exact Hm].
  eapply R_trans; [exact Hm | apply Hk].
Qed.

Lemma keeps_mapM {A B} (f : A -> M B) (l : list A) :
  (forall a, keeps R (f a)) -> keeps R (mapM f l).
Proof.
  intros Hf. induction l as [|a l IH]; simpl; [apply keeps_ret|].
  apply keeps_bind; [apply Hf|]. intros b.
  apply keeps_bind; [exact IH|]. intros bs. apply keeps_ret.
Qed.
End Keeps.

Lemma only_allocates_refl s : only_allocates s s.
Proof. repeat split. exists []. rewrite app_nil_r. reflexivity. Qed.

Lemma only_allocates_trans s1 s2 s3 :
  only_allocates s1 s2 -> only_allocates s2 s3 -> only_allocates s1 s3.
Proof.
  intros (Hb & Hl & Hs & ext & Hh) (Hb' & Hl' & Hs' & ext' & Hh').
  repeat split; try congruence.
  exists (ext ++ ext'). rewrite Hh', Hh, app_assoc. reflexivity.
Qed.

Lemma stays_valid_refl s : stays_valid s s.
Proof. intros Hs. exact Hs. Qed.

Lemma stays_valid_trans s1 s2 s3 : stays_valid s1 s2 -> stays_valid s2 s3 -> stays_valid s1 s3.
Proof. unfold stays_valid. auto. Qed.

(* one step through a computation of [M] *)
Ltac keeps_step :=
  first [ exact only_allocates_refl | exact only_allocates_trans
        | exact stays_valid_refl | exact stays_valid_trans
        | apply keeps_ret | apply keeps_raise | apply keeps_gets | apply keeps_lift
        | apply keeps_bind
        | match goal with |- forall _ : ?T, _ =>
            lazymatch T with state => fail | _ => intro end
          end ].

Section FetchMore.
Context `{World}.
Implicit Types (s : state).

Lemma cache_get_allocates key : keeps only_allocates (cache_get key).
Proof.
  intros s. destruct (cache_get_frame key s) as (c & ->).
  repeat split. exists []. rewrite app_nil_r. reflexivity.
Qed.

Lemma cache_put_frame key item s : exists c, snd (cache_put key item s) = set_cache c s.
Proof. unfold cache_put. destruct (_cache_put _ _ _ _ _) as [r c]. eauto. Qed.

Lemma cache_put_allocates key item : keeps only_allocates (cache_put key item).
Proof.
  intros s. destruct (cache_put_frame key item s) as (c & ->).
  repeat split. exists []. rewrite app_nil_r. reflexivity.
Qed.

Lemma alloc_allocates d : keeps only_allocates (alloc d).
Proof. intros s. repeat split. exists [d]. reflexivity. Qed.

Lemma get_page_resume_allocates page_id response :
  keeps only_allocates (_get_page_resume page_id response).
Proof.
  pose proof only_allocates_refl. pose proof only_allocates_trans.
  destruct response as [|[|] [c|]]; simpl;
    repeat first [ apply alloc_allocates | apply cache_put_allocates
                 | apply cache_get_allocates | keeps_step ]; auto.
Qed.

Lemma wake_allocates i tasks : keeps only_allocates (wake i tasks).
Proof.
  pose proof only_allocates_refl. pose proof only_allocates_trans.
  unfold wake. destruct (tasks !! i) as [[r|id response]|];
    repeat first [ apply get_page_resume_allocates | keeps_step ]; auto.
Qed.

Lemma settle_allocates order : forall tasks, keeps only_allocates (settle order tasks).
Proof.
  pose proof only_allocates_refl. pose proof only_allocates_trans.
  induction order as [|i order IH]; intros tasks; simpl;
    repeat first [ apply wake_allocates | apply IH | keeps_step ]; auto.
Qed.

(** *** The references of the cache *)

Lemma valid_moved key r (h : list serialized_page) (c : OD.t nat) :
  Forall (fun e : string * nat => (snd e < length h)%nat) c ->
  OD.getitem key c = Some r ->
  Forall (fun e : string * nat => (snd e < length h)%nat) (OD.delitem key c ++ [(key, r)]).
Proof.
  intros Hc Hg. apply Forall_app. split.
  - unfold OD.delitem. clear Hg. induction Hc as [|e c He Hc IH]; simpl; [constructor|].
    destruct (negb _); [constructor; assumption | assumption].
  - constructor; [|constructor]. simpl.
    clear -Hc Hg. induction Hc as [|[k v] c He Hc IH]; simpl in *; [discriminate|].
    destruct (String.eqb key k); [inversion Hg; subst; exact He | apply IH, Hg].
Qed.

Lemma valid_setitem key r (h : list serialized_page) (c : OD.t nat) :
  Forall (fun e : string * nat => (snd e < length h)%nat) c ->
  (r < length h)%nat ->
  Forall (fun e : string * nat => (snd e < length h)%nat) (OD.setitem key r c).
Proof.
  intros Hc Hr. induction Hc as [|[k v] c He Hc IH]; simpl.
  - constructor; [exact Hr | constructor].
  - destruct (String.eqb key k); constructor; assumption.
Qed.

Lemma cache_get_valid key : keeps stays_valid (cache_get key).
Proof.
  intros s Hs. unfold cache_get, _cache_get, OD.move_to_end.
  destruct (OD.getitem key (cache (self s))) as [r|] eqn:Hg; [|exact Hs].
  rewrite getitem_moved. unfold cache_refs_valid. simpl. apply valid_moved; assumption.
Qed.

Lemma cache_put_valid key item s :
  cache_refs_valid s -> (item < length (heap s))%nat ->
  cache_refs_valid (snd (cache_put key item s)).
Proof.
  intros Hs Hitem. destruct (cache_put_outcome key item s) as (n & _ & -> & _).
  unfold cache_refs_valid. simpl. apply Forall_take, valid_setitem; assumption.
Qed.

Lemma get_page_resume_valid page_id response :
  keeps stays_valid (_get_page_resume page_id response).
Proof.
  intros s Hs. page_cases response page_id s; simpl; try exact Hs.
  unfold bind, gets, alloc, lift. simpl.
  set (s1 := set_heap _ s).
  assert (cache_refs_valid s1) as Hs1.
  { unfold cache_refs_valid, s1. simpl. rewrite length_app. simpl.
    eapply Forall_impl; [exact Hs|]. simpl. intros e He. lia. }
  pose proof (cache_put_valid page_id (length (heap s)) s1 Hs1) as Hput.
  destruct (cache_put page_id (length (heap s)) s1) as [[[]|e] s2]; simpl in *.
  - assert (cache_refs_valid s2) as Hs2.
    { apply Hput. unfold s1. simpl. rewrite length_app. simpl. lia. }
    pose proof (cache_get_valid page_id s2 Hs2) as Hget.
    destruct (cache_get page_id s2) as [[r|e] s3]; exact Hget.
  - apply Hput. unfold s1. simpl. rewrite length_app. simpl. lia.
Qed.

Lemma get_page_start_valid page_id : keeps stays_valid (_get_page_start page_id).
Proof.
  intros s Hs. destruct (OD.getitem page_id (cache (self s))) as [r|] eqn:Hg.
  - rewrite (get_page_start_hit page_id s r Hg). simpl.
    unfold cache_refs_valid. simpl. apply valid_moved; assumption.
  - rewrite get_page_start_miss; [exact Hs|].
    destruct (OD.contains page_id (cache (self s))) eqn:E; [|reflexivity].
    apply contains_getitem in E. rewrite Hg in E. destruct E; discriminate.
Qed.

Lemma gather_valid arrival pages : keeps stays_valid (_gather arrival pages).
Proof.
  pose proof stays_valid_refl. pose proof stays_valid_trans.
  assert (forall order tasks, keeps stays_valid (settle order tasks)) as Hsettle.
  { induction order as [|i order IH]; intros tasks; simpl; [apply keeps_ret; auto|].
    apply keeps_bind; auto. unfold wake.
    destruct (tasks !! i) as [[r|id response]|];
      repeat first [ apply get_page_resume_valid | keeps_step ]; auto. }
  unfold _gather.
  repeat first [ apply Hsettle | apply keeps_mapM | apply get_page_start_valid | keeps_step ]; auto.
Qed.

Lemma search_valid arrival query : keeps stays_valid (search arrival query).
Proof.
  pose proof stays_valid_refl. pose proof stays_valid_trans.
  assert (keeps stays_valid (search_pages query)) as Hsearch.
  { intros s Hs. rewrite search_pages_outcome. exact Hs. }
  assert (forall p, keeps stays_valid (strip_page p)) as Hstrip.
  { intros p s Hs. unfold strip_page, modify, cache_refs_valid. simpl.
    rewrite length_alter. exact Hs. }
  unfold search, fetch_pages.
  repeat first [ apply Hsearch | apply gather_valid | apply keeps_mapM | apply Hstrip
               | keeps_step ]; auto.
Qed.

(** X7. The references that the cache holds always point to page dicts:
    a search on a client of which this is true leaves it true, whether
    the search returns or raises, and it is true after every call of
    the route, which starts from an empty cache. *)
Theorem cache_references_stay_valid :
  forall arrival query s,
    (cache_refs_valid s -> cache_refs_valid (snd (search arrival query s))) /\
    forall settings, cache_refs_valid (snd (routes.search settings arrival query s)).
Proof.
  intros arrival query s. split; [apply search_valid|].
  intros settings. unfold routes.search, bind, modify. cbv beta iota.
  pose proof (search_valid arrival query (set_self (get_client settings) s)) as Hv.
  assert (cache_refs_valid (set_self (get_client settings) s)) as H0 by constructor.
  specialize (Hv H0).
  destruct (search arrival query (set_self (get_client settings) s)) as [[data|[]] s']; exact Hv.
Qed.
End FetchMore.

(** ** One fetch, case by case *)

Section FetchCases.
Context `{World}.
Implicit Types (s : state).

Lemma contains_false_iff {V} k (d : OD.t V) : OD.contains k d = false <-> OD.getitem k d = None.
Proof.
  split; [apply contains_false|]. intros Hg.
  destruct (OD.contains k d) eqn:E; [|reflexivity].
  apply contains_getitem in E. rewrite Hg in E. destruct E; discriminate.
Qed.

(** X8. A fetch of a cached identifier is served from the cache: it
    returns the cached dict, sends no request and creates no dict; the
    only change is that the entry becomes the most recent one, every
    lookup in the cache being as before. *)
Theorem fetch_of_cached_page :
  forall page_id s r,
    OD.getitem page_id (cache (self s)) = Some r ->
    exists s',
      _get_page page_id s = (Ok (Some r), s') /\
      sent s' = sent s /\ heap s' = heap s /\
      last (cache (self s')) = Some (page_id, r) /\
      forall k, OD.getitem k (cache (self s')) = OD.getitem k (cache (self s)).
Proof.
  intros page_id s r Hg. eexists. unfold _get_page, bind.
  rewrite (get_page_start_hit page_id s r Hg). unfold ret.
  split; [reflexivity|]. split; [reflexivity|]. split; [reflexivity|]. simpl.
  split; [apply last_snoc | apply getitem_move, Hg].
Qed.


(** X10. A fetch of an identifier that is not cached, answered with a
    page that fits under the ceiling, sends one request, creates one
    dict with the title and the raw body of the page and the URL
    base_url/wiki followed by the web link, caches it as the most recent
    entry and returns it. *)
Theorem fetch_of_new_page :
  forall page_id c s,
    cache_refs_valid s ->
    OD.contains page_id (cache (self s)) = false ->
    session_get (sent s) (page_request s page_id) = PageResponse true (Some (json_of c)) ->
    cache_size s + Z.of_N (getsizeof (page_of (base_url (self s)) c)) <= CACHE_LIMIT_BYTES (self s) ->
    exists s',
      _get_page page_id s = (Ok (Some (length (heap s))), s') /\
      sent s' = sent s ++ [page_request s page_id] /\
      heap s' = heap s ++ [{| title := content_title c;
                              text := content_body_value c;
                              url := base_url (self s) +:+ "/wiki" +:+ content_webui c |}] /\
      cache (self s') = cache (self s) ++ [(page_id, length (heap s))].
Proof.
  intros page_id c s Hvalid Hfresh Hresp Hroom. unfold _get_page, bind.
  rewrite (get_page_start_miss page_id s Hfresh). fold (page_request s page_id). rewrite Hresp.
  destruct (get_page_resume_fits page_id c (set_sent (sent s ++ [page_request s page_id]) s)
              Hvalid Hfresh Hroom) as (s' & Hrun & Hheap & Hcache).
  exists s'. split; [exact Hrun|]. split; [|split; [exact Hheap | exact Hcache]].
  pose proof (get_page_resume_allocates page_id (PageResponse true (Some (json_of c)))
                (set_sent (sent s ++ [page_request s page_id]) s)) as (_ & _ & Hsent & _).
  rewrite Hrun in Hsent. exact Hsent.
Qed.
End FetchCases.

(** ** A batch, as a whole *)

Section BatchMore.
Context `{World}.
Implicit Types (s : state).

Lemma missing_ext s s' ids :
  (forall k, OD.getitem k (cache (self s')) = OD.getitem k (cache (self s))) ->
  missing s' ids = missing s ids.
Proof.
  intros Hext. unfold missing. induction ids as [|id ids IH]; [reflexivity|].
  simpl. rewrite (contains_ext id _ _ (Hext id)), IH. reflexivity.
Qed.

Lemma start_all_Ok ids s : exists tasks, fst (mapM _get_page_start ids s) = Ok tasks.
Proof.
  destruct (start_all ids s s []) as (tasks & s1 & Hrun & _); auto.
  { simpl. rewrite app_nil_r. reflexivity. }
  exists tasks. rewrite Hrun. reflexivity.
Qed.

Lemma mapM_cons_snd {A B} (f : A -> M B) a l s :
  snd (mapM f (a :: l) s) =
  match f a s with
  | (Ok _, s') => snd (mapM f l s')
  | (Raise _, s') => s'
  end.
Proof.
  simpl. unfold bind. destruct (f a s) as [[b|e] s']; [|reflexivity].
  destruct (mapM f l s') as [[bs|e] s'']; reflexivity.
Qed.

Lemma start_all_state ids : forall s,
  sent (snd (mapM _get_page_start ids s)) = sent s ++ map (page_request s) (missing s ids) /\
  heap (snd (mapM _get_page_start ids s)) = heap s /\
  base_url (self (snd (mapM _get_page_start ids s))) = base_url (self s) /\
  CACHE_LIMIT_BYTES (self (snd (mapM _get_page_start ids s))) = CACHE_LIMIT_BYTES (self s).
Proof.
  induction ids as [|id ids IH]; intros s.
  - simpl. rewrite app_nil_r. auto.
  - rewrite mapM_cons_snd.
    destruct (OD.getitem id (cache (self s))) as [r|] eqn:Hg.
    + rewrite (get_page_start_hit id s r Hg).
      set (sa := set_cache _ s). destruct (IH sa) as (Hs & Hh & Hb & Hl).
      unfold missing at 1. simpl.
      assert (OD.contains id (cache (self s)) = true) as -> by (apply contains_getitem; eauto).
      simpl. fold (missing s ids). rewrite Hs, (missing_ext s sa); [auto|].
      intros k. apply getitem_move, Hg.
    + apply contains_false_iff in Hg. rewrite (get_page_start_miss id s Hg).
      set (sa := set_sent _ s). destruct (IH sa) as (Hs & Hh & Hb & Hl).
      unfold missing at 1. simpl. rewrite Hg. simpl. fold (missing s ids).
      rewrite Hs. unfold sa. simpl. rewrite <- app_assoc. auto.
Qed.

Lemma gather_state arrival pages ids s :
  page_ids pages = Ok ids ->
  let s' := snd (_gather arrival pages s) in
  sent s' = sent s ++ map (page_request s) (missing s ids) /\
  base_url (self s') = base_url (self s) /\
  CACHE_LIMIT_BYTES (self s') = CACHE_LIMIT_BYTES (self s) /\
  exists ext, heap s' = heap s ++ ext.
Proof.
  intros Hids. unfold _gather, bind, lift. rewrite Hids.
  destruct (start_all_Ok ids s) as (tasks & Htasks).
  pose proof (start_all_state ids s) as (Hs & Hh & Hb & Hl).
  destruct (mapM _get_page_start ids s) as [rt s1]. simpl in *. subst rt.
  pose proof (settle_allocates (arrival ++ seq 0 (length tasks)) tasks s1)
    as (Hb2 & Hl2 & Hs2 & ext & Hh2).
  destruct (settle _ tasks s1) as [[tasks'|e] s2]; simpl in *;
    (split; [congruence|]; split; [congruence|]; split; [congruence|];
     exists ext; congruence).
Qed.




Lemma settle_nothing order s : settle order [] s = (Ok [], s).
Proof.
  induction order as [|i order IH]; [reflexivity|].
  simpl. unfold bind, wake. rewrite lookup_nil. unfold ret. exact IH.
Qed.

Lemma page_ids_typeless pages :
  Forall (fun p => OD.contains PAGE_TYPE p = false) pages -> page_ids pages = Ok [].
Proof.
  induction 1 as [|p pages Hp _ IH]; [reflexivity|]. simpl. rewrite Hp. exact IH.
Qed.

(** X13. Hits without a type are not fetched: when the search answers 200
    and none of its hits has a type, or its body has no results at all,
    the search returns the empty list and the search request is the
    only request sent. *)
Theorem search_without_typed_hits :
  forall arrival query s status_text json,
    requests_get (sent s) (search_request query s) = SearchResponse 200 status_text json ->
    match json with
    | Some (Some hits) => Forall (fun p => OD.contains PAGE_TYPE p = false) hits
    | Some None => True
    | None => False
    end ->
    search arrival query s = (Ok [], set_sent (sent s ++ [search_request query s]) s).
Proof.
  intros arrival query s status_text json Hresp Hjson.
  rewrite search_unfold, search_pages_outcome, Hresp. simpl.
  assert (forall hits s0, Forall (fun p => OD.contains PAGE_TYPE p = false) hits ->
            fetch_pages arrival hits s0 = (Ok [], s0)) as Hnone.
  { intros hits s0 Hhits. unfold fetch_pages, _gather, bind, lift.
    rewrite (page_ids_typeless hits Hhits). simpl. unfold ret at 1.
    rewrite settle_nothing. reflexivity. }
  destruct json as [[hits|]|]; [| |contradiction].
  - rewrite (Hnone hits _ Hjson). reflexivity.
  - rewrite (Hnone [] _ (Forall_nil_2 _)). reflexivity.
Qed.

(** X14. A batch never writes into a page dict that exists (only the
    normalisation of a search does): every dict of the heap is, after
    the batch, what it was before, and the settings of the client are
    untouched, whether the batch returns or raises. *)
Theorem batch_leaves_dicts_alone :
  forall arrival pages s r d,
    heap s !! r = Some d ->
    heap (snd (fetch_pages arrival pages s)) !! r = Some d /\
    base_url (self (snd (fetch_pages arrival pages s))) = base_url (self s) /\
    CACHE_LIMIT_BYTES (self (snd (fetch_pages arrival pages s))) = CACHE_LIMIT_BYTES (self s).
Proof.
  intros arrival pages s r d Hr. unfold fetch_pages.
  destruct (page_ids pages) as [ids|e] eqn:Hids.
  - destruct (gather_state arrival pages ids s Hids) as (_ & Hb & Hl & ext & Hh).
    split; [|split; assumption]. rewrite Hh. apply lookup_app_l_Some, Hr.
  - unfold _gather, bind, lift. rewrite Hids. simpl. auto.
Qed.
End BatchMore.

Section ArrivalOrder.
Context `{World}.
Implicit Types (s : state).

Lemma getitem_valid key r (h : list serialized_page) (c : OD.t nat) :
  Forall (fun e : string * nat => (snd e < length h)%nat) c ->
  OD.getitem key c = Some r -> (r < length h)%nat.
Proof.
  induction 1 as [|[k v] c He Hc IH]; simpl; [discriminate|].
  destruct (String.eqb key k); [intros Heq; inversion Heq; subst; exact He | exact IH].
Qed.

(* the record of a slot does not depend on the run that filled it *)
Lemma owed_record s s1 s2 ids i slot1 slot2 :
  cache_refs_valid s ->
  (exists ext, heap s1 = heap s ++ ext) ->
  (exists ext, heap s2 = heap s ++ ext) ->
  owed s s1 ids i slot1 -> owed s s2 ids i slot2 ->
  deref (heap s1) <$> slot1 = deref (heap s2) <$> slot2.
Proof.
  intros Hvalid (ext1 & Hh1) (ext2 & Hh2). unfold owed.
  destruct (ids !! i) as [id|]; [|contradiction]. unfold started.
  destruct (OD.getitem id (cache (self s))) as [r|] eqn:Hg; simpl.
  - intros -> ->. simpl. f_equal. unfold deref.
    pose proof (getitem_valid id r (heap s) _ Hvalid Hg) as Hr.
    rewrite Hh1, Hh2, !lookup_app_l by exact Hr. reflexivity.
  - destruct (session_get _ _) as [|[|] [j|]]; simpl; try contradiction.
    + destruct (complete j) as [c|]; [|contradiction].
      intros (ra & -> & Ha) (rb & -> & Hb). simpl. unfold deref. rewrite Ha, Hb. reflexivity.
    + intros -> ->. reflexivity.
    + intros -> ->. reflexivity.
Qed.

(** X15. The records that a batch returns do not depend on the order in
    which the responses arrive: two runs of the same batch from the same
    state that both return give, slot by slot, the same records (the
    dicts of two runs are distinct objects with equal contents). *)
Theorem records_independent_of_arrival :
  forall arrival1 arrival2 pages s results1 s1 results2 s2,
    cache_refs_valid s ->
    fetch_pages arrival1 pages s = (Ok results1, s1) ->
    fetch_pages arrival2 pages s = (Ok results2, s2) ->
    map (fmap (deref (heap s1))) results1 = map (fmap (deref (heap s2))) results2.
Proof.
  intros arrival1 arrival2 pages s results1 s1 results2 s2 Hvalid Hrun1 Hrun2.
  destruct (gather_Ok arrival1 pages s results1 s1 Hrun1) as (ids & Hids & Hlen1 & Howed1).
  destruct (gather_Ok arrival2 pages s results2 s2 Hrun2) as (ids' & Hids' & Hlen2 & Howed2).
  assert (ids' = ids) as -> by congruence.
  pose proof (gather_state arrival1 pages ids s Hids) as (_ & _ & _ & Hext1).
  pose proof (gather_state arrival2 pages ids s Hids) as (_ & _ & _ & Hext2).
  unfold fetch_pages in Hrun1, Hrun2. rewrite Hrun1 in Hext1. rewrite Hrun2 in Hext2.
  simpl in Hext1, Hext2.
  apply list_eq. intros i.
  rewrite !list_lookup_fmap.
  destruct (results1 !! i) as [slot1|] eqn:H1, (results2 !! i) as [slot2|] eqn:H2; simpl.
  - f_equal. apply (owed_record s s1 s2 ids i); auto.
  - apply lookup_lt_Some in H1. apply lookup_ge_None in H2. lia.
  - apply lookup_lt_Some in H2. apply lookup_ge_None in H1. lia.
  - reflexivity.
Qed.
End ArrivalOrder.

(** ** The route and its dependency *)

Section RouteMore.
Context `{World}.
Implicit Types (s : state).

Lemma route_unfold settings arrival query s :
  routes.search settings arrival query s =
  match search arrival query (set_self (get_client settings) s) with
  | (Ok data, s') => (Ok (map (deref (heap s')) data), s')
  | (Raise (UpstreamProviderError message), s') => (Raise (HTTPException 502 message), s')
  | (Raise e, s') => (Raise e, s')
  end.
Proof. reflexivity. Qed.

Lemma search_raises_fetch_failure arrival query s pages s0 e s1 :
  search_pages query s = (Ok pages, s0) ->
  search arrival query s = (Raise e, s1) -> fetch_failure e.
Proof.
  intros Hpages. rewrite search_unfold, Hpages.
  destruct (fetch_pages arrival pages s0) as [[fetched|e'] s'] eqn:Hf; [discriminate|].
  intros Heq. inversion Heq; subst. eapply gather_raises, Hf.
Qed.

(** X16. The route turns the upstream error of the search into an HTTP
    error 502 that carries its message, and raises no other HTTP error:
    the call fails with 502 exactly when the search request is answered
    with a status other than 200, no page having been requested; and an
    UpstreamProviderError never leaves the route. *)
Theorem route_translates_upstream_error :
  forall settings arrival query s,
    let client := set_self (get_client settings) s in
    (forall message,
        fst (routes.search settings arrival query s) <> Raise (UpstreamProviderError message)) /\
    match requests_get (sent s) (search_request query client) with
    | SearchResponse status_code response_text _ =>
        if status_code =? 200 then
          forall code detail,
            fst (routes.search settings arrival query s) <> Raise (HTTPException code detail)
        else
          routes.search settings arrival query s =
          (Raise (HTTPException 502 ("Error during Confluence search: " +:+ response_text)),
           set_sent (sent s ++ [search_request query client]) client)
    | SearchNetworkFailure =>
        forall code detail,
          fst (routes.search settings arrival query s) <> Raise (HTTPException code detail)
    end.
Proof.
  intros settings arrival query s client. rewrite route_unfold. fold client.
  pose proof (search_raises_fetch_failure arrival query client) as Hfail.
  pose proof (search_pages_outcome query client) as Hpages.
  rewrite search_unfold, Hpages in *.
  change (sent client) with (sent s) in *.
  destruct (requests_get (sent s) (search_request query client)) as [|status txt json].
  - split; intros; discriminate.
  - destruct (status =? 200); [|split; [intros; discriminate | reflexivity]].
    assert (forall pages, json = Some (Some pages) \/ (json = Some None /\ pages = []) ->
              forall e s1, (match fetch_pages arrival pages (set_sent (sent s ++ [search_request query client]) client) with
                     | (Ok fetched, s1) =>
                         (Ok (omap id fetched),
                          set_heap (foldl (fun h r => alter strip_text r h) (heap s1) (omap id fetched)) s1)
                     | (Raise e, s1) => (Raise e, s1)
                     end) = (Raise e, s1) -> fetch_failure e) as Hf.
    { intros pages Hj e s1. destruct Hj as [->|[-> ->]]; apply (Hfail _ _ e s1 eq_refl). }
    destruct json as [[pages|]|]; [| |split; intros; discriminate].
    + specialize (Hf pages (or_introl eq_refl)).
      destruct (fetch_pages arrival pages _) as [[fetched|e] s1]; [split; intros; discriminate|].
      specialize (Hf e s1 eq_refl). destruct e; try contradiction; split; intros; discriminate.
    + specialize (Hf [] (or_intror (conj eq_refl eq_refl))).
      destruct (fetch_pages arrival [] _) as [[fetched|e] s1]; [split; intros; discriminate|].
      specialize (Hf e s1 eq_refl). destruct e; try contradiction; split; intros; discriminate.
Qed.

Lemma missing_empty_cache s ids : cache (self s) = [] -> missing s ids = ids.
Proof.
  intros Hc. unfold missing. rewrite Hc. induction ids as [|id ids IH]; [reflexivity|].
  simpl. f_equal. exact IH.
Qed.

(** X17. Every call of the route goes upstream for every hit: when the
    search request is answered 200 with hits whose typed ones all have
    an identifier, the call sends the search request and then one page
    request for each typed hit, in order, none being served from a
    cache, whether the call returns or raises. *)
Theorem route_requests :
  forall settings arrival query s response_text hits ids,
    let client := set_self (get_client settings) s in
    requests_get (sent s) (search_request query client)
      = SearchResponse 200 response_text (Some (Some hits)) ->
    page_ids hits = Ok ids ->
    sent (snd (routes.search settings arrival query s)) =
    sent s ++ search_request query client :: map (page_request client) ids.
Proof.
  intros settings arrival query s response_text hits ids client Hresp Hids.
  rewrite route_unfold. fold client.
  rewrite search_unfold, search_pages_outcome.
  change (sent client) with (sent s). rewrite Hresp. simpl.
  set (s0 := set_sent (sent s ++ [search_request query client]) client).
  pose proof (gather_state arrival hits ids s0 Hids) as (Hsent & _).
  unfold fetch_pages.
  rewrite (missing_empty_cache s0 ids eq_refl) in Hsent.
  assert (sent (snd (_gather arrival hits s0)) =
          sent s ++ search_request query client :: map (page_request client) ids) as Hgoal.
  { rewrite Hsent. unfold s0. simpl. rewrite <- app_assoc. reflexivity. }
  destruct (_gather arrival hits s0) as [[fetched|e] s1]; simpl in *; [exact Hgoal|].
  destruct e; exact Hgoal.
Qed.

(** X18. The search runs only for the configured key. The dependency of
    the route returns only the configured API key, and only for the
    credentials Bearer with that key; then the call is the search
    handler. In every other case the call raises, with 403 unless the
    exception is the inherited one, and nothing happens: no client is
    made and no request is sent. *)
Theorem search_requires_api_key :
  forall settings inherited arrival query s,
    match CustomBearer_call settings inherited with
    | Ok token =>
        token = confluence_connector_api_key settings /\
        inherited = Ok (Some {| scheme := "Bearer";
                                credentials := confluence_connector_api_key settings |}) /\
        post_search settings inherited arrival query s = routes.search settings arrival query s
    | Raise e =>
        post_search settings inherited arrival query s = (Raise e, s) /\
        (inherited = Raise e \/ exists detail, e = HTTPException 403 detail)
    end.
Proof.
  intros settings inherited arrival query s. unfold post_search, CustomBearer_call.
  destruct inherited as [[[sch cr]|]|e]; simpl.
  - destruct (String.eqb sch "Bearer") eqn:Es; simpl; [|split; [reflexivity | eauto]].
    destruct (String.eqb cr (confluence_connector_api_key settings)) eqn:Ec; simpl;
      [|split; [reflexivity | eauto]].
    apply String.eqb_eq in Es, Ec. subst. auto.
  - split; [reflexivity | eauto].
  - split; [reflexivity | auto].
Qed.
End RouteMore.

(** ** What the route returns *)

Section RouteResults.
Context `{World}.
Implicit Types (s : state).

Lemma wake_distinct i tasks0 tasks s tasks' s' :
  length tasks = length tasks0 ->
  distinct_dicts (heap s) tasks0 tasks ->
  wake i tasks s = (Ok tasks', s') ->
  length tasks' = length tasks0 /\ distinct_dicts (heap s') tasks0 tasks'.
Proof.
  intros Hlen [Hin Hinj] Hwake. unfold wake in Hwake.
  destruct (tasks !! i) as [[r|id response]|] eqn:Hi;
    try (inversion Hwake; subst; split; [exact Hlen | split; assumption]).
  unfold bind, ret in Hwake.
  pose proof (get_page_resume_allocates id response s) as (_ & _ & _ & ext & Hheap).
  destruct (_get_page_resume id response s) as [[r|e] s1] eqn:Hres; [|discriminate].
  inversion Hwake; subst tasks' s'. clear Hwake. simpl in Hheap.
  assert (i < length tasks)%nat as Hlt by (apply lookup_lt_is_Some; eauto).
  split; [rewrite length_insert; exact Hlen|].
  assert (forall j rj, j <> i -> created (heap s1) tasks0 (<[i:=Finished r]> tasks) j rj ->
                       created (heap s) tasks0 tasks j rj) as Hold.
  { intros j rj Hne (pid & resp & H0 & H1). exists pid, resp. split; [exact H0|].
    rewrite list_lookup_insert_ne in H1 by congruence. exact H1. }
  assert (forall ri, created (heap s1) tasks0 (<[i:=Finished r]> tasks) i ri ->
                     ri = length (heap s) /\ (length (heap s) < length (heap s1))%nat) as Hnew.
  { intros ri (pid & resp & H0 & H1).
    rewrite list_lookup_insert_eq in H1 by exact Hlt. inversion H1; subst r.
    apply get_page_resume_Some in Hres. destruct Hres as (c & _ & -> & Hh & _).
    split; [reflexivity|]. rewrite Hh, length_app. simpl. lia. }
  split.
  - intros j rj Hc. destruct (decide (j = i)) as [->|Hne].
    + destruct (Hnew rj Hc). lia.
    + specialize (Hin j rj (Hold j rj Hne Hc)). rewrite Hheap, length_app. lia.
  - intros j k rj Hj Hk.
    destruct (decide (j = i)) as [->|Hj'], (decide (k = i)) as [->|Hk']; try reflexivity.
    + destruct (Hnew rj Hj) as [-> _]. specialize (Hin k _ (Hold k _ Hk' Hk)). lia.
    + destruct (Hnew rj Hk) as [-> _]. specialize (Hin j _ (Hold j _ Hj' Hj)). lia.
    + apply (Hinj j k rj); auto.
Qed.

Lemma settle_distinct order : forall tasks0 tasks s tasks' s',
  length tasks = length tasks0 ->
  distinct_dicts (heap s) tasks0 tasks ->
  settle order tasks s = (Ok tasks', s') ->
  length tasks' = length tasks0 /\ distinct_dicts (heap s') tasks0 tasks'.
Proof.
  induction order as [|i order IH]; intros tasks0 tasks s tasks' s' Hlen Hd Hsettle.
  - inversion Hsettle; subst. auto.
  - simpl in Hsettle. unfold bind in Hsettle.
    destruct (wake i tasks s) as [[tasks1|e] s1] eqn:Hwake; [|discriminate].
    destruct (wake_distinct i tasks0 tasks s tasks1 s1 Hlen Hd Hwake) as (Hlen1 & Hd1).
    apply (IH tasks0 tasks1 s1 tasks' s' Hlen1 Hd1 Hsettle).
Qed.

Lemma NoDup_omap_id {A} (l : list (option A)) :
  (forall i j x, l !! i = Some (Some x) -> l !! j = Some (Some x) -> i = j) ->
  NoDup (omap id l).
Proof.
  induction l as [|o l IH]; intros Hinj; simpl; [constructor|].
  assert (NoDup (omap id l)) as Hl.
  { apply IH. intros i j x Hi Hj. specialize (Hinj (S i) (S j) x Hi Hj). lia. }
  destruct o as [x|]; simpl; [|exact Hl].
  constructor; [|exact Hl].
  intros Hx. apply list_elem_of_omap in Hx. destruct Hx as (o & Ho & Hid).
  simpl in Hid. subst o. apply list_elem_of_lookup in Ho. destruct Ho as (j & Hj).
  specialize (Hinj 0%nat (S j) x eq_refl Hj). discriminate.
Qed.

Lemma started_empty_cache s earlier page_id :
  cache (self s) = [] ->
  started s earlier page_id =
  Suspended page_id (session_get (sent s ++ map (page_request s) earlier) (page_request s page_id)).
Proof.
  intros Hc. unfold started. rewrite Hc. simpl.
  fold (page_request s page_id).
  replace (List.filter (fun _ : string => true) earlier) with earlier; [reflexivity|].
  induction earlier as [|e l IH]; [reflexivity|]. simpl. f_equal. exact IH.
Qed.

(* a batch on a client with an empty cache returns distinct dicts *)
Lemma gather_distinct arrival pages s results s' :
  cache (self s) = [] ->
  _gather arrival pages s = (Ok results, s') ->
  NoDup (omap id results).
Proof.
  intros Hempty. unfold _gather, bind, lift, ret.
  destruct (page_ids pages) as [ids|e] eqn:Hids; [|discriminate].
  destruct (start_all ids s s []) as (tasks & s1 & Hrun & _ & _ & Hlen & Hspec); auto.
  { simpl. rewrite app_nil_r. reflexivity. }
  rewrite Hrun.
  destruct (settle _ tasks s1) as [[tasks'|e] s2] eqn:Hsettle; [|discriminate].
  intros Heq. inversion Heq; subst results s2. clear Heq.
  assert (distinct_dicts (heap s1) tasks tasks) as Hd0.
  { split.
    - intros i r (pid & resp & H0 & H1). congruence.
    - intros i j r (pid & resp & H0 & H1). congruence. }
  destruct (settle_distinct _ tasks tasks s1 tasks' s' eq_refl Hd0 Hsettle) as (Hlen' & _ & Hinj).
  apply NoDup_omap_id. intros i j x Hi Hj.
  rewrite list_lookup_fmap in Hi, Hj.
  destruct (tasks' !! i) as [ti|] eqn:Hti; [|discriminate].
  destruct (tasks' !! j) as [tj|] eqn:Htj; [|discriminate].
  simpl in Hi, Hj.
  assert (forall k t, tasks' !! k = Some t -> task_result t = Some x ->
                      created (heap s') tasks tasks' k x) as Hcreated.
  { intros k t Hk Hres.
    assert (k < length ids)%nat as Hlt
      by (rewrite <- Hlen, <- Hlen'; apply lookup_lt_is_Some; eauto).
    destruct (lookup_lt_is_Some_2 ids k Hlt) as [idk Hidk].
    specialize (Hspec k idk Hidk). simpl in Hspec.
    rewrite (started_empty_cache s (take k ids) idk Hempty) in Hspec.
    eexists _, _. split; [exact Hspec|].
    destruct t as [r|pid resp]; simpl in Hres; [|discriminate]. subst r. exact Hk. }
  inversion Hi. inversion Hj.
  apply (Hinj i j x); eauto.
Qed.

Lemma omap_pointwise {A B} (g : A -> option B) (h : nat -> option B) (l : list A) : forall k,
  (forall i a, l !! i = Some a -> g a = h (k + i)%nat) ->
  omap g l = omap h (seq k (length l)).
Proof.
  induction l as [|a l IH]; intros k Hgh; [reflexivity|].
  pose proof (Hgh 0%nat a eq_refl) as H0. rewrite Nat.add_0_r in H0.
  assert (omap g l = omap h (seq (S k) (length l))) as IHl.
  { apply IH. intros i b Hi. rewrite (Hgh (S i) b Hi). f_equal. lia. }
  change (omap g (a :: l)) with (match g a with Some y => y :: omap g l | None => omap g l end).
  change (omap h (seq k (length (a :: l))))
    with (match h k with Some y => y :: omap h (seq (S k) (length l))
                       | None => omap h (seq (S k) (length l)) end).
  rewrite H0, IHl. reflexivity.
Qed.

Lemma map_omap_id {A B} (f : A -> B) (l : list (option A)) :
  map f (omap id l) = omap (fmap f) l.
Proof.
  induction l as [|[a|] l IH]; simpl; [reflexivity| |exact IH].
  f_equal. exact IH.
Qed.

(** X19. What a call of the route returns. When the search request is
    answered 200 with hits whose typed ones all have an identifier, and
    the call returns, it returns one record for each typed hit whose
    page request is answered ok, in the order of the hits and with
    duplicates kept: the title of the page, its body stripped once, and
    the URL base_url/wiki followed by the web link; the hits answered
    with another status are left out. *)
Theorem route_results :
  forall settings arrival query s response_text hits ids data s',
    let client := set_self (get_client settings) s in
    let s0 := set_sent (sent s ++ [search_request query client]) client in
    requests_get (sent s) (search_request query client)
      = SearchResponse 200 response_text (Some (Some hits)) ->
    page_ids hits = Ok ids ->
    routes.search settings arrival query s = (Ok data, s') ->
    data = omap (route_record s0 ids) (seq 0 (length ids)).
Proof.
  intros settings arrival query s response_text hits ids data s' client s0 Hresp Hids.
  rewrite route_unfold. fold client.
  rewrite search_unfold, search_pages_outcome.
  change (sent client) with (sent s). rewrite Hresp. simpl. fold s0.
  destruct (fetch_pages arrival hits s0) as [[fetched|e] s1] eqn:Hfetch;
    [|destruct e; discriminate].
  intros Heq. inversion Heq; subst data s'. clear Heq. simpl.
  destruct (gather_Ok arrival hits s0 fetched s1 Hfetch) as (ids' & Hids' & Hlen & Howed).
  assert (ids' = ids) as -> by congruence.
  pose proof (gather_distinct arrival hits s0 fetched s1 eq_refl Hfetch) as Hnd.
  rewrite map_omap_id, <- Hlen. apply omap_pointwise. intros i slot Hi. simpl.
  specialize (Howed i slot Hi). unfold owed in Howed. unfold route_record.
  destruct (ids !! i) as [page_id|]; [|contradiction].
  rewrite (started_empty_cache s0 (take i ids) page_id eq_refl) in Howed.
  destruct (session_get _ (page_request s0 page_id)) as [|[|] [j|]]; simpl in Howed;
    try contradiction; try (subst slot; reflexivity).
  destruct (complete j) as [c|]; [|contradiction].
  destruct Howed as (r & -> & Hr). simpl. f_equal. unfold deref.
  rewrite (lookup_strip_all _ _ r _ Hr).
  assert (count_occ Nat.eq_dec (omap id fetched) r = 1%nat) as ->.
  { apply NoDup_count_occ'; [apply NoDup_ListNoDup, Hnd|].
    apply list_elem_of_In, list_elem_of_omap. exists (Some r). split; [|reflexivity].
    apply list_elem_of_lookup. eauto. }
  reflexivity.
Qed.
End RouteResults.

Lemma route_results_witness :
  [{| title := "Page 1"; text := "body 1"; url := "https://wiki.example/wiki/spaces/X/pages/1" |};
   {| title := "Page 2"; text := "body 2"; url := "https://wiki.example/wiki/spaces/X/pages/2" |}]
  = omap (route_record (H := world_served)
            (set_sent (sent (fresh_state demo_client) ++
                       [search_request (H := world_served) "q"
                          (set_self (get_client demo_settings) (fresh_state demo_client))])
               (set_self (get_client demo_settings) (fresh_state demo_client)))
            ["1"; "2"]%string)
         (seq 0 (length ["1"; "2"]%string)).
Proof.
  apply (route_results (H := world_served) demo_settings [1%nat] "q" (fresh_state demo_client)
           "{...}" [hit "1"; hit "2"] ["1"; "2"]%string _
           (snd (routes.search (H := world_served) demo_settings [1%nat] "q"
                   (fresh_state demo_client))));
    vm_compute; reflexivity.
Defined.

(** * The further properties on concrete runs *)

Lemma cache_keys_stay_unique_witness :
  NoDup (OD.keys (snd (_cache_put (fun _ : nat => 184%N) 400 "a" 2%nat [("a", 0%nat); ("b", 1%nat)]))) /\
  NoDup (OD.keys (snd (_cache_get (V := nat) "a" [("a", 0%nat); ("b", 1%nat)]))).
Proof.
  apply (cache_keys_stay_unique (fun _ : nat => 184%N) 400 "a" 2%nat [("a", 0%nat); ("b", 1%nat)]).
  apply (bool_decide_unpack _). vm_compute. reflexivity.
Defined.

Lemma cache_get_only_reorders_witness :
  fst (_cache_get "a" [("a", 0%nat); ("b", 1%nat)]) = Ok 0%nat /\
  (forall k, OD.getitem k (snd (_cache_get "a" [("a", 0%nat); ("b", 1%nat)]))
             = OD.getitem k [("a", 0%nat); ("b", 1%nat)]) /\
  _cache_size (fun _ : nat => 184%N) (snd (_cache_get "a" [("a", 0%nat); ("b", 1%nat)]))
    = _cache_size (fun _ : nat => 184%N) [("a", 0%nat); ("b", 1%nat)] /\
  length (snd (_cache_get "a" [("a", 0%nat); ("b", 1%nat)])) = length [("a", 0%nat); ("b", 1%nat)] /\
  last (snd (_cache_get "a" [("a", 0%nat); ("b", 1%nat)])) = Some ("a"%string, 0%nat).
Proof.
  apply (cache_get_only_reorders (fun _ : nat => 184%N) "a" [("a", 0%nat); ("b", 1%nat)]).
  apply (bool_decide_unpack _). vm_compute. reflexivity.
Defined.

Lemma cache_put_then_get_witness :
  _cache_put (fun _ : nat => 184%N) 400 "a" 5%nat [("a", 0%nat); ("b", 1%nat)]
    = (Ok tt, [("a", 5%nat); ("b", 1%nat)]) /\
  fst (_cache_get "a" (OD.setitem "a" 5%nat [("a", 0%nat); ("b", 1%nat)])) = Ok 5%nat.
Proof.
  destruct (cache_put_then_get (fun _ : nat => 184%N) 400 "a" 5%nat [("a", 0%nat); ("b", 1%nat)])
    as (Hput & _ & Hget & _); [vm_compute; discriminate|].
  split; [exact Hput | exact Hget].
Defined.

Lemma cache_put_without_room_witness :
  _cache_put (fun _ : nat => 184%N) 400 "c" 2%nat [("a", 0%nat); ("b", 1%nat)]
    = (Ok tt, [("a", 0%nat); ("b", 1%nat)]).
Proof.
  apply (cache_put_without_room (fun _ : nat => 184%N) 400 "c" 2%nat [("a", 0%nat); ("b", 1%nat)]).
  - reflexivity.
  - vm_compute. discriminate.
  - vm_compute. reflexivity.
Defined.

Lemma fetch_of_cached_page_witness :
  exists s',
    _get_page (H := world_served) "1" warm_state = (Ok (Some 0%nat), s') /\
    sent s' = sent warm_state /\ heap s' = heap warm_state /\
    last (cache (self s')) = Some ("1"%string, 0%nat) /\
    forall k, OD.getitem k (cache (self s')) = OD.getitem k (cache (self warm_state)).
Proof.
  apply (fetch_of_cached_page (H := world_served) "1" warm_state 0%nat). reflexivity.
Defined.


Lemma fetch_of_new_page_witness :
  exists s',
    _get_page (H := world_served) "1" (fresh_state demo_client) = (Ok (Some 0%nat), s') /\
    sent s' = [page_request (fresh_state demo_client) "1"] /\
    heap s' = [{| title := "Page 1"; text := "<p>body 1</p>";
                  url := "https://wiki.example/wiki/spaces/X/pages/1" |}] /\
    cache (self s') = [("1"%string, 0%nat)].
Proof.
  apply (fetch_of_new_page (H := world_served) "1" (demo_content "1") (fresh_state demo_client)).
  - constructor.
  - reflexivity.
  - reflexivity.
  - vm_compute. discriminate.
Defined.



Lemma search_without_typed_hits_witness :
  search (H := world_untyped) [] "q" (fresh_state demo_client) =
  (Ok [], set_sent [search_request (H := world_untyped) "q" (fresh_state demo_client)]
            (fresh_state demo_client)).
Proof.
  apply (search_without_typed_hits (H := world_untyped) [] "q" (fresh_state demo_client)
           "{...}" (Some (Some [[("id", "7")]%string]))).
  - reflexivity.
  - repeat constructor.
Defined.

Lemma batch_leaves_dicts_alone_witness :
  heap (snd (fetch_pages (H := world_served) [] [hit "2"; hit "1"] warm_state)) !! 0%nat =
  Some {| title := "Page 1"; text := "<p>body 1</p>";
          url := "https://wiki.example/wiki/spaces/X/pages/1" |}.
Proof.
  apply (batch_leaves_dicts_alone (H := world_served) [] [hit "2"; hit "1"] warm_state 0%nat).
  reflexivity.
Defined.

Lemma records_independent_of_arrival_witness :
  map (fmap (deref (heap (snd (fetch_pages (H := world_served) [] [hit "1"; hit "2"]
                                  (fresh_state demo_client))))))
      [Some 0%nat; Some 1%nat] =
  map (fmap (deref (heap (snd (fetch_pages (H := world_served) [1%nat] [hit "1"; hit "2"]
                                  (fresh_state demo_client))))))
      [Some 1%nat; Some 0%nat].
Proof.
  apply (records_independent_of_arrival (H := world_served) [] [1%nat] [hit "1"; hit "2"]
           (fresh_state demo_client)).
  - constructor.
  - vm_compute. reflexivity.
  - vm_compute. reflexivity.
Defined.

Lemma route_requests_witness :
  sent (snd (routes.search (H := world_served) demo_settings [] "q" warm_state)) =
  sent warm_state ++
  search_request (H := world_served) "q" (set_self (get_client demo_settings) warm_state)
  :: map (page_request (set_self (get_client demo_settings) warm_state)) ["1"; "2"]%string.
Proof.
  apply (route_requests (H := world_served) demo_settings [] "q" warm_state "{...}"
           [hit "1"; hit "2"] ["1"; "2"]%string); reflexivity.
Defined.

(** * The records are shared *)

Section SharedRecords.
Context `{World}.
Implicit Types (s : state) (tasks : list task).

(* a fetch returns the dict that the cache holds *)
Lemma get_page_shares page_id s r s' :
  _get_page page_id s = (Ok (Some r), s') ->
  OD.getitem page_id (cache (self s')) = Some r.
Proof.
  unfold _get_page, bind.
  destruct (OD.getitem page_id (cache (self s))) as [r0|] eqn:Hg.
  - rewrite (get_page_start_hit page_id s r0 Hg). unfold ret.
    intros Heq. inversion Heq; subst. simpl. apply getitem_moved.
  - apply contains_false_iff in Hg. rewrite (get_page_start_miss page_id s Hg).
    intros Hres. apply get_page_resume_Some in Hres.
    destruct Hres as (c & _ & _ & _ & _ & Hcache). exact Hcache.
Qed.

(* a response that arrives adds no entry for another identifier *)
Lemma get_page_resume_others page_id response s slot s' k v :
  _get_page_resume page_id response s = (Ok slot, s') ->
  k <> page_id ->
  OD.getitem k (cache (self s')) = Some v -> OD.getitem k (cache (self s)) = Some v.
Proof.
  intros Hres Hne. destruct slot as [r|].
  2:{ apply get_page_resume_None in Hres. destruct Hres as [-> _]. auto. }
  revert Hres. page_cases response page_id s; try discriminate.
  unfold _get_page_resume, bind, gets, alloc, ret, lift. simpl.
  set (d := {| title := _; text := _; url := _ |}).
  set (s1 := set_heap (heap s ++ [d]) s).
  destruct (cache_put_outcome page_id (length (heap s)) s1) as (n & Hn & Hsnd & _).
  destruct (cache_put page_id (length (heap s)) s1) as [[[]|e] s2]; [|discriminate].
  simpl in Hsnd. subst s2.
  set (c2 := take n _).
  destruct (OD.getitem page_id c2) as [r'|] eqn:Hg.
  - rewrite (cache_get_hit page_id (set_cache c2 s1) r') by exact Hg.
    intros Heq. inversion Heq; subst; clear Heq. simpl.
    rewrite (getitem_move page_id _ c2 Hg k). unfold c2. intros Hk.
    apply getitem_take in Hk. rewrite getitem_setitem_ne in Hk by exact Hne. exact Hk.
  - rewrite (cache_get_miss page_id (set_cache c2 s1)) by exact Hg. discriminate.
Qed.

(* when the identifier was not cached, a response that gives a dict
   evicts nothing: the other lookups are as before *)
Lemma get_page_resume_appends page_id response s r s' k :
  _get_page_resume page_id response s = (Ok (Some r), s') ->
  OD.getitem page_id (cache (self s)) = None ->
  k <> page_id ->
  OD.getitem k (cache (self s')) = OD.getitem k (cache (self s)).
Proof.
  intros Hres Hfresh Hne. revert Hres. page_cases response page_id s; try discriminate.
  unfold _get_page_resume, bind, gets, alloc, ret, lift. simpl.
  set (d := {| title := _; text := _; url := _ |}).
  set (s1 := set_heap (heap s ++ [d]) s).
  destruct (cache_put_outcome page_id (length (heap s)) s1) as (n & Hn & Hsnd & _).
  destruct (cache_put page_id (length (heap s)) s1) as [[[]|e] s2]; [|discriminate].
  simpl in Hsnd. subst s2.
  change (cache (self s1)) with (cache (self s)) in *.
  rewrite setitem_fresh in * by exact Hfresh.
  set (c2 := take n _).
  destruct (OD.getitem page_id c2) as [r'|] eqn:Hg.
  - rewrite (cache_get_hit page_id (set_cache c2 s1) r') by exact Hg.
    intros Heq. inversion Heq; subst; clear Heq. simpl.
    rewrite (getitem_move page_id _ c2 Hg k).
    assert (c2 = cache (self s) ++ [(page_id, length (heap s))]) as ->.
    { unfold c2. destruct (decide (n <= length (cache (self s)))%nat) as [Hle|Hgt].
      - unfold c2 in Hg. rewrite take_app_le in Hg by exact Hle.
        rewrite (getitem_take_None page_id _ n Hfresh) in Hg. discriminate.
      - apply take_ge. rewrite length_app. simpl. lia. }
    destruct (OD.getitem k (cache (self s))) as [v|] eqn:Hk.
    + apply getitem_app_l. exact Hk.
    + rewrite getitem_app_r by exact Hk. simpl.
      apply String.eqb_neq in Hne. rewrite Hne. reflexivity.
  - rewrite (cache_get_miss page_id (set_cache c2 s1)) by exact Hg. discriminate.
Qed.

Lemma wake_shares ids i tasks s tasks' s' :
  waits_in_place ids tasks ->
  cached_are_results ids tasks s ->
  wake i tasks s = (Ok tasks', s') ->
  waits_in_place ids tasks' /\ cached_are_results ids tasks' s'.
Proof.
  intros Hplace Hcached Hwake. unfold wake in Hwake.
  destruct (tasks !! i) as [[r|id response]|] eqn:Hi;
    try (inversion Hwake; subst; split; assumption).
  unfold bind, ret in Hwake.
  destruct (_get_page_resume id response s) as [[slot|e] s1] eqn:Hres; [|discriminate].
  inversion Hwake; subst tasks' s'. clear Hwake.
  assert (i < length tasks)%nat as Hlt by (apply lookup_lt_is_Some; eauto).
  split.
  - intros j page_id response' Hj. destruct (decide (j = i)) as [->|Hne].
    + rewrite list_lookup_insert_eq in Hj by exact Hlt. discriminate.
    + rewrite list_lookup_insert_ne in Hj by congruence. eapply Hplace, Hj.
  - intros k r Hk Hg.
    assert (forall j, ids !! j = Some k -> tasks !! j = Some (Finished (Some r)) ->
                      exists j', ids !! j' = Some k /\
                                 <[i := Finished slot]> tasks !! j' = Some (Finished (Some r)))
      as Hkeep.
    { intros j Hj Hfin. exists j. split; [exact Hj|].
      rewrite list_lookup_insert_ne; [exact Hfin|]. congruence. }
    destruct slot as [r'|].
    + destruct (decide (k = id)) as [->|Hne].
      * exists i. split; [eapply Hplace, Hi|].
        rewrite list_lookup_insert_eq by exact Hlt.
        pose proof (get_page_resume_Some _ _ _ _ _ Hres) as (c & _ & _ & _ & _ & Hc).
        congruence.
      * pose proof (get_page_resume_others _ _ _ _ _ k r Hres Hne Hg) as Hg0.
        destruct (Hcached k r Hk Hg0) as (j & Hj & Hfin). eauto.
    + apply get_page_resume_None in Hres. destruct Hres as [-> _].
      destruct (Hcached k r Hk Hg) as (j & Hj & Hfin). eauto.
Qed.

Lemma settle_shares ids order : forall tasks s tasks' s',
  waits_in_place ids tasks ->
  cached_are_results ids tasks s ->
  settle order tasks s = (Ok tasks', s') ->
  waits_in_place ids tasks' /\ cached_are_results ids tasks' s'.
Proof.
  induction order as [|i order IH]; intros tasks s tasks' s' Hplace Hcached Hsettle.
  - inversion Hsettle; subst. auto.
  - simpl in Hsettle. unfold bind in Hsettle.
    destruct (wake i tasks s) as [[tasks1|e] s1] eqn:Hwake; [|discriminate].
    destruct (wake_shares ids i tasks s tasks1 s1 Hplace Hcached Hwake) as (Hplace1 & Hcached1).
    apply (IH tasks1 s1 tasks' s' Hplace1 Hcached1 Hsettle).
Qed.

Lemma wake_caches ids i tasks s tasks' s' :
  NoDup ids ->
  waits_in_place ids tasks ->
  results_are_cached ids tasks s ->
  wake i tasks s = (Ok tasks', s') ->
  waits_in_place ids tasks' /\ results_are_cached ids tasks' s'.
Proof.
  intros Hnd Hplace [Hwait Hdone] Hwake. unfold wake in Hwake.
  destruct (tasks !! i) as [[r|id response]|] eqn:Hi;
    try (inversion Hwake; subst; split; [assumption | split; assumption]).
  unfold bind, ret in Hwake.
  destruct (_get_page_resume id response s) as [[slot|e] s1] eqn:Hres; [|discriminate].
  inversion Hwake; subst tasks' s'. clear Hwake.
  assert (i < length tasks)%nat as Hlt by (apply lookup_lt_is_Some; eauto).
  pose proof (Hplace i id response Hi) as Hid.
  pose proof (Hwait i id response Hi) as Hfresh.
  assert (waits_in_place ids (<[i := Finished slot]> tasks)) as Hplace'.
  { intros j page_id response' Hj. destruct (decide (j = i)) as [->|Hne].
    - rewrite list_lookup_insert_eq in Hj by exact Hlt. discriminate.
    - rewrite list_lookup_insert_ne in Hj by congruence. eapply Hplace, Hj. }
  split; [exact Hplace'|].
  assert (forall j page_id, j <> i -> ids !! j = Some page_id -> page_id <> id) as Hother.
  { intros j page_id Hne Hj ->. apply Hne. eapply NoDup_lookup; eauto. }
  destruct slot as [r|].
  - pose proof (get_page_resume_Some _ _ _ _ _ Hres) as (c & _ & _ & _ & _ & Hc).
    split.
    + intros j page_id response' Hj.
      destruct (decide (j = i)) as [->|Hne].
      * rewrite list_lookup_insert_eq in Hj by exact Hlt. discriminate.
      * rewrite list_lookup_insert_ne in Hj by congruence.
        rewrite (get_page_resume_appends _ _ _ _ _ page_id Hres Hfresh).
        -- eapply Hwait, Hj.
        -- eapply Hother; [exact Hne|]. eapply Hplace, Hj.
    + intros j page_id r' Hj Hfin.
      destruct (decide (j = i)) as [->|Hne].
      * rewrite list_lookup_insert_eq in Hfin by exact Hlt. congruence.
      * rewrite list_lookup_insert_ne in Hfin by congruence.
        rewrite (get_page_resume_appends _ _ _ _ _ page_id Hres Hfresh).
        -- eapply Hdone; eassumption.
        -- eapply Hother; eassumption.
  - apply get_page_resume_None in Hres. destruct Hres as [-> _]. split.
    + intros j page_id response' Hj.
      destruct (decide (j = i)) as [->|Hne].
      * rewrite list_lookup_insert_eq in Hj by exact Hlt. discriminate.
      * rewrite list_lookup_insert_ne in Hj by congruence. eapply Hwait, Hj.
    + intros j page_id r' Hj Hfin.
      destruct (decide (j = i)) as [->|Hne].
      * rewrite list_lookup_insert_eq in Hfin by exact Hlt. discriminate.
      * rewrite list_lookup_insert_ne in Hfin by congruence. eapply Hdone; eassumption.
Qed.

Lemma settle_caches ids order : forall tasks s tasks' s',
  NoDup ids ->
  waits_in_place ids tasks ->
  results_are_cached ids tasks s ->
  settle order tasks s = (Ok tasks', s') ->
  waits_in_place ids tasks' /\ results_are_cached ids tasks' s'.
Proof.
  induction order as [|i order IH]; intros tasks s tasks' s' Hnd Hplace Hcached Hsettle.
  - inversion Hsettle; subst. auto.
  - simpl in Hsettle. unfold bind in Hsettle.
    destruct (wake i tasks s) as [[tasks1|e] s1] eqn:Hwake; [|discriminate].
    destruct (wake_caches ids i tasks s tasks1 s1 Hnd Hplace Hcached Hwake) as (Hplace1 & Hcached1).
    apply (IH tasks1 s1 tasks' s' Hnd Hplace1 Hcached1 Hsettle).
Qed.

(* starting the tasks changes no lookup in the cache *)
Lemma start_all_cache ids : forall s k,
  OD.getitem k (cache (self (snd (mapM _get_page_start ids s)))) = OD.getitem k (cache (self s)).
Proof.
  induction ids as [|id ids IH]; intros s k; [reflexivity|].
  rewrite mapM_cons_snd.
  destruct (OD.getitem id (cache (self s))) as [r|] eqn:Hg.
  - rewrite (get_page_start_hit id s r Hg), IH. simpl. apply getitem_move, Hg.
  - apply contains_false_iff in Hg. rewrite (get_page_start_miss id s Hg), IH. reflexivity.
Qed.

(* The cache and the results of a batch that returns *)
Lemma gather_shares arrival pages s results s' :
  _gather arrival pages s = (Ok results, s') ->
  exists ids,
    page_ids pages = Ok ids /\
    (forall k r, k ∈ ids -> OD.getitem k (cache (self s')) = Some r ->
       exists i, ids !! i = Some k /\ results !! i = Some (Some r)) /\
    (NoDup ids -> forall i k r, ids !! i = Some k -> results !! i = Some (Some r) ->
       OD.getitem k (cache (self s')) = Some r).
Proof.
  unfold _gather, bind, lift, ret.
  destruct (page_ids pages) as [ids|e] eqn:Hids; [|discriminate].
  destruct (start_all ids s s []) as (tasks & s1 & Hrun & _ & _ & Hlen & Hspec); auto.
  { simpl. rewrite app_nil_r. reflexivity. }
  pose proof (start_all_cache ids s) as Hcache. rewrite Hrun in *. simpl in Hcache.
  destruct (settle _ tasks s1) as [[tasks'|e] s2] eqn:Hsettle; [|discriminate].
  intros Heq. inversion Heq; subst results s2. clear Heq.
  assert (waits_in_place ids tasks) as Hplace.
  { intros i page_id response Hi.
    destruct (lookup_lt_is_Some_2 ids i) as [id Hid].
    { rewrite <- Hlen. apply lookup_lt_is_Some. eauto. }
    rewrite (Hspec i id Hid) in Hi. simpl in Hi. unfold started in Hi.
    destruct (OD.getitem id (cache (self s))); inversion Hi; subst. exact Hid. }
  assert (forall i id, ids !! i = Some id ->
            match OD.getitem id (cache (self s1)) with
            | Some r => tasks !! i = Some (Finished (Some r))
            | None => exists response, tasks !! i = Some (Suspended id response)
            end) as Hstart.
  { intros i id Hid. rewrite (Hspec i id Hid), Hcache. simpl. unfold started.
    destruct (OD.getitem id (cache (self s))); eauto. }
  exists ids. split; [reflexivity|]. split.
  - assert (cached_are_results ids tasks s1) as Hcached.
    { intros k r Hk Hg. apply list_elem_of_lookup in Hk. destruct Hk as [i Hi].
      exists i. split; [exact Hi|]. specialize (Hstart i k Hi). rewrite Hg in Hstart.
      exact Hstart. }
    destruct (settle_shares ids _ tasks s1 tasks' s' Hplace Hcached Hsettle) as (_ & Hend).
    intros k r Hk Hg. destruct (Hend k r Hk Hg) as (i & Hi & Hfin).
    exists i. split; [exact Hi|]. rewrite list_lookup_fmap, Hfin. reflexivity.
  - intros Hnd.
    assert (results_are_cached ids tasks s1) as Hcached.
    { split.
      - intros i page_id response Hi. pose proof (Hplace i page_id response Hi) as Hid.
        specialize (Hstart i page_id Hid).
        destruct (OD.getitem page_id (cache (self s1))); [congruence | reflexivity].
      - intros i page_id r Hid Hfin. specialize (Hstart i page_id Hid).
        destruct (OD.getitem page_id (cache (self s1))) as [r'|].
        + congruence.
        + destruct Hstart as [response Hs]. congruence. }
    destruct (settle_caches ids _ tasks s1 tasks' s' Hnd Hplace Hcached Hsettle)
      as (Hplace' & _ & Hend).
    intros i k r Hi Hres. rewrite list_lookup_fmap in Hres.
    destruct (tasks' !! i) as [[slot|id response]|] eqn:Ht; simpl in Hres; try discriminate.
    inversion Hres; subst slot. eapply Hend; eassumption.
Qed.
(** C5, amended. The records are shared and mutable. A fetch that
    returns a dict returns the very dict that the cache then holds for
    the identifier.  A search whose fetches return writes the stripped
    text into the dicts that the fetches returned: the client and its
    cache are as after the fetches, and the text of every dict is its
    text after the fetches, stripped once for each time the search
    returns the dict (not at all for a dict it does not return); title
    and url are untouched.  What the cache holds afterwards for an
    identifier of a typed hit is a dict that the search returned for
    that identifier, so it holds stripped text; and when the
    identifiers of the typed hits are pairwise distinct, every dict
    that the search returns is the one the cache holds for its
    identifier. *)
Theorem normalization_writes_into_cached_records :
  forall arrival query s pages s0 ids fetched s1,
    search_pages query s = (Ok pages, s0) ->
    page_ids pages = Ok ids ->
    fetch_pages arrival pages s0 = (Ok fetched, s1) ->
    exists s',
      search arrival query s = (Ok (omap id fetched), s') /\
      self s' = self s1 /\ sent s' = sent s1 /\
      (forall r d, heap s1 !! r = Some d ->
         heap s' !! r =
         Some {| title := title d;
                 text := Nat.iter (count_occ Nat.eq_dec (omap id fetched) r) stripped_text (text d);
                 url := url d |}) /\
      (forall k r, k ∈ ids -> OD.getitem k (cache (self s')) = Some r ->
         (exists i, ids !! i = Some k /\ fetched !! i = Some (Some r)) /\
         (1 <= count_occ Nat.eq_dec (omap id fetched) r)%nat) /\
      (cache_refs_valid s ->
       forall k r, k ∈ ids -> OD.getitem k (cache (self s')) = Some r ->
         exists d n,
           heap s1 !! r = Some d /\
           heap s' !! r = Some {| title := title d;
                                  text := stripped_text (Nat.iter n stripped_text (text d));
                                  url := url d |}) /\
      (NoDup ids ->
       forall i k r, ids !! i = Some k -> fetched !! i = Some (Some r) ->
         OD.getitem k (cache (self s')) = Some r) /\
      (forall page_id sa r sb,
         _get_page page_id sa = (Ok (Some r), sb) ->
         OD.getitem page_id (cache (self sb)) = Some r).
Proof.
  intros arrival query s pages s0 ids fetched s1 Hsearch Hids Hfetch.
  destruct (gather_shares arrival pages s0 fetched s1 Hfetch) as (ids' & Hids' & Hcached & Hall).
  assert (ids' = ids) as -> by congruence.
  assert (forall r d, heap s1 !! r = Some d ->
            foldl (fun h r => alter strip_text r h) (heap s1) (omap id fetched) !! r =
            Some {| title := title d;
                    text := Nat.iter (count_occ Nat.eq_dec (omap id fetched) r)
                              stripped_text (text d);
                    url := url d |}) as Hheap.
  { intros r d Hr. rewrite (lookup_strip_all _ _ r d Hr). f_equal. apply iter_strip_text. }
  assert (forall k r, k ∈ ids -> OD.getitem k (cache (self s1)) = Some r ->
            (exists i, ids !! i = Some k /\ fetched !! i = Some (Some r)) /\
            (1 <= count_occ Nat.eq_dec (omap id fetched) r)%nat) as Hback.
  { intros k r Hk Hg. destruct (Hcached k r Hk Hg) as (i & Hi & Hres).
    split; [eauto|]. apply count_occ_In, list_elem_of_In, list_elem_of_omap.
    exists (Some r). split; [|reflexivity]. apply list_elem_of_lookup. eauto. }
  eexists. rewrite search_unfold, Hsearch, Hfetch.
  split; [reflexivity|]. split; [reflexivity|]. split; [reflexivity|].
  split; [exact Hheap|]. split; [exact Hback|].
  split; [|split; [exact Hall | apply get_page_shares]].
  intros Hvalid k r Hk Hg. simpl in Hg.
  assert (cache_refs_valid s1) as Hvalid1.
  { assert (cache_refs_valid s0) as Hvalid0.
    { rewrite search_pages_outcome in Hsearch. inversion Hsearch; subst s0. exact Hvalid. }
    pose proof (gather_valid arrival pages s0 Hvalid0) as Hv.
    unfold fetch_pages in Hfetch. rewrite Hfetch in Hv. exact Hv. }
  pose proof (getitem_valid k r (heap s1) _ Hvalid1 Hg) as Hlt.
  destruct (lookup_lt_is_Some_2 _ _ Hlt) as [d Hd].
  destruct (Hback k r Hk Hg) as [_ Hcount].
  destruct (count_occ Nat.eq_dec (omap id fetched) r) as [|n] eqn:Hn; [lia|].
  exists d, n. split; [exact Hd|]. simpl. rewrite (Hheap r d Hd), Hn. reflexivity.
Qed.
End SharedRecords.

Lemma normalization_writes_into_cached_records_witness :
  exists s',
    search (H := world_served) [] "q" (fresh_state demo_client) = (Ok [0%nat; 1%nat], s') /\
    OD.getitem "1" (cache (self s')) = Some 0%nat /\
    heap s' !! 0%nat =
      Some {| title := "Page 1"; text := "body 1"; url := "https://wiki.example/wiki/spaces/X/pages/1" |}.
Proof.
  destruct (normalization_writes_into_cached_records (H := world_served) [] "q"
              (fresh_state demo_client) [hit "1"; hit "2"]
              (snd (search_pages (H := world_served) "q" (fresh_state demo_client)))
              ["1"; "2"]%string
              [Some 0%nat; Some 1%nat]
              (snd (fetch_pages (H := world_served) [] [hit "1"; hit "2"]
                      (snd (search_pages (H := world_served) "q" (fresh_state demo_client)))))
              eq_refl eq_refl eq_refl)
    as (s' & Hsearch & _ & _ & Hheap & _ & _ & Hall & _).
  exists s'. split; [exact Hsearch|]. split.
  - apply (Hall ltac:(apply (bool_decide_unpack _); vm_compute; reflexivity)
             0%nat "1"%string 0%nat eq_refl eq_refl).
  - apply (Hheap 0%nat
             {| title := "Page 1"; text := "<p>body 1</p>";
                url := "https://wiki.example/wiki/spaces/X/pages/1" |}).
    reflexivity.
Defined.
